(** * Incremental parse-tree cache of the Tolk language server

    A shallow embedding of [server/src/trees.ts] (class [Trees]) and of
    [server/src/queries/globals.ts] ([queryGlobals]).

    JavaScript objects that are mutated through references ([Entry] objects
    held by the cache, tree-sitter [Tree] objects) live in explicit heaps
    indexed by references; the calls made to the parsing engine and to the
    [onParseDone] emitter are recorded, in order, in a trace.  Exceptions are
    part of the monad in which the methods are written. *)

From stdpp Require Import gmap strings list.
From Stdlib Require Import ZArith Ascii.

Local Open Scope Z_scope.
#[local] Set Warnings "-clear-no-such-hyp,-register-all".

(** ** Data of the language-server protocol and of tree-sitter *)

(** [lsp.Position] *)
Record Position := mkPosition { line : Z; character : Z }.

(** [lsp.Range] *)
Record Range := mkRange { range_start : Position; range_end : Position }.

(** [Parser.Point] *)
Record Point := mkPoint { row : Z; column : Z }.

(** [Parser.Edit] *)
Record Edit := mkEdit {
  startPosition : Point;
  oldEndPosition : Point;
  newEndPosition : Point;
  startIndex : Z;
  oldEndIndex : Z;
  newEndIndex : Z
}.

(** [TextDocument]: the three members that [Trees] reads. *)
Record TextDocument := mkDoc {
  uri : string;
  version : Z;
  getText : string
}.

(** One element of [TextDocumentChange2.changes]. *)
Record Change := mkChange {
  range : Range;
  rangeOffset : Z;
  rangeLength : Z;
  text : string
}.

(** [TextDocumentChange2] *)
Record TextDocumentChange2 := mkChange2 {
  document : TextDocument;
  changes : list Change
}.

(** [class Entry]: the tree is a reference into the heap of trees. *)
Record Entry := mkEntry {
  entry_version : Z;
  entry_tree : nat;
  entry_edits : list (list Edit)
}.

(** ** The bounded cache *)

Module LRUMap.

(** Modelled from the spec: the class [LRUMap] of [utils/lruMap] is not
    among the sources.  It is a fixed-capacity mapping with
    least-recently-used eviction; the entries are kept in recency order,
    least recently used first.  Every operation returns, next to its
    result, the entries it hands to the [dispose] hook. *)
Abbreviation t K V := (list (K * V)) (only parsing).

Section LRUMap.
Context {K V : Type} `{EqDecision K}.
Implicit Types (k : K) (v : V) (m : t K V).

Definition has k m : bool :=
  bool_decide (k ∈ m.*1).

Fixpoint peek k m : option V :=
  match m with
  | [] => None
  | (k', v) :: m' => if decide (k = k') then Some v else peek k m'
  end.

Definition remove k m : t K V :=
  filter (λ e, e.1 ≠ k) m.

(** Modelled from the spec: [get(key) -> value|absent]; [get] updates
    recency. *)
Definition get k m : option V * t K V :=
  match peek k m with
  | Some v => (Some v, remove k m ++ [(k, v)])
  | None => (None, m)
  end.

(** Modelled from the spec: [set(key, value)] inserts or replaces and
    updates recency; on an insertion that would exceed the capacity the
    single least-recently-used entry is evicted and passed to [dispose]
    before the new entry is added. *)
Definition set (capacity : nat) k v m : t K V * list (K * V) :=
  match peek k m with
  | Some _ => (remove k m ++ [(k, v)], [])
  | None =>
      if decide (capacity ≤ length m)%nat then
        match m with
        | [] => ([(k, v)], [])
        | lru :: m' => (m' ++ [(k, v)], [lru])
        end
      else (m ++ [(k, v)], [])
  end.

(** Modelled from the spec: [delete(key)]; the disposal hook is invoked on
    every removed entry. *)
Definition delete k m : t K V * list (K * V) :=
  match peek k m with
  | Some v => (remove k m, [(k, v)])
  | None => (m, [])
  end.

(** Modelled from the spec: [values()], a snapshot in recency order. *)
Definition values m : list V := m.*2.

End LRUMap.
End LRUMap.

(** ** The parse orchestrator *)

Module Trees.
Section Trees.

(** The parsing engine (web-tree-sitter) is a parameter: the contents of a
    tree, [parser.parse(text, oldTree?)] and [tree.edit(delta)].  [None]
    stands for an exception thrown by the engine. *)
Context {TreeData : Type}.
Variable ts_parse : string → option TreeData → option TreeData.
Variable ts_edit : TreeData → Edit → option TreeData.

(** [TextDocument.positionAt] of vscode-languageserver-textdocument. *)
Variable positionAt : TextDocument → Z → Position.

(** [ParseDone] as a subscriber of [onParseDone] receives it; [seen] is
    what the subscriber finds in the cache under the document's URI at the
    moment the event is fired. *)
Inductive Event :=
| EvParse (txt : string) (oldTree : option nat) (result : option nat)
| EvEdit (tree : nat) (delta : Edit)
| EvDelete (tree : nat)
| EvParseDone (doc : TextDocument) (tree : nat) (seen : option Entry).

Record State := mkState {
  _cache : LRUMap.t string nat;      (* uri -> reference of an Entry *)
  entries : gmap nat Entry;          (* heap of Entry objects *)
  trees : gmap nat TreeData;         (* heap of Tree objects *)
  trace : list Event;                (* engine and emitter calls, oldest first *)
  _listener : bool                   (* the change listener is attached *)
}.

Definition with_cache (c : LRUMap.t string nat) (s : State) : State :=
  mkState c (entries s) (trees s) (trace s) (_listener s).
Definition with_entries (h : gmap nat Entry) (s : State) : State :=
  mkState (_cache s) h (trees s) (trace s) (_listener s).
Definition with_trees (h : gmap nat TreeData) (s : State) : State :=
  mkState (_cache s) (entries s) h (trace s) (_listener s).
Definition log (ev : Event) (s : State) : State :=
  mkState (_cache s) (entries s) (trees s) (trace s ++ [ev]) (_listener s).
Definition with_listener (b : bool) (s : State) : State :=
  mkState (_cache s) (entries s) (trees s) (trace s) b.

(** [new Trees(documents)]: empty cache, listener attached. *)
Definition init : State := mkState [] ∅ ∅ [] true.

(** *** State and exceptions *)

Definition M (A : Type) : Type := State → option A * State.

Definition ret {A} (a : A) : M A := λ s, (Some a, s).
Definition throw {A} : M A := λ s, (None, s).
Definition bind {A B} (m : M A) (f : A → M B) : M B :=
  λ s, match m s with
       | (Some a, s') => f a s'
       | (None, s') => (None, s')
       end.
Definition try_catch {A} (m : M A) (handler : M A) : M A :=
  λ s, match m s with
       | (Some a, s') => (Some a, s')
       | (None, s') => handler s'
       end.

Notation "'do' x <- m ; k" := (bind m (λ x, k))
  (at level 10, x name, m at level 100, k at level 200).
Notation "'call' m ; k" := (bind m (λ _, k))
  (at level 10, m at level 100, k at level 200).

Fixpoint forEach {A} (f : A → M unit) (l : list A) : M unit :=
  match l with
  | [] => ret tt
  | x :: l' => call f x ; forEach f l'
  end.

(** *** Heap accesses *)

(** Reading a member of an [Entry] through its reference. *)
Definition read_entry (r : nat) : M Entry :=
  λ s, (entries s !! r, s).

Definition write_entry (r : nat) (e : Entry) : M unit :=
  λ s, (Some tt, with_entries (<[r := e]> (entries s)) s).

(** [new Entry(version, tree, edits)] *)
Definition new_Entry (v : Z) (tree : nat) (eds : list (list Edit)) : M nat :=
  λ s, let r := fresh (dom (entries s)) in
       (Some r, with_entries (<[r := mkEntry v tree eds]> (entries s)) s).

(** *** Calls to the parsing engine *)

(** [this._parser.parse(text, oldTree?)]: a new [Tree] object, or an
    exception. *)
Definition parser_parse (txt : string) (oldTree : option nat) : M nat :=
  λ s, let old := oldTree ≫= (λ t, trees s !! t) in
       match ts_parse txt old with
       | Some d =>
           let t := fresh (dom (trees s)) in
           (Some t, log (EvParse txt oldTree (Some t))
                        (with_trees (<[t := d]> (trees s)) s))
       | None => (None, log (EvParse txt oldTree None) s)
       end.

(** [tree.edit(delta)]: adjusts the tree in place. *)
Definition tree_edit (t : nat) (delta : Edit) : M unit :=
  λ s, let s' := log (EvEdit t delta) s in
       match trees s !! t ≫= (λ d, ts_edit d delta) with
       | Some d' => (Some tt, with_trees (<[t := d']> (trees s')) s')
       | None => (None, s')
       end.

(** [tree.delete()] *)
Definition tree_delete (t : nat) : M unit :=
  λ s, (Some tt, log (EvDelete t) s).

(** [this._onParseDone.fire({document, tree})]: the emitter calls its
    subscribers at once; it does not throw. *)
Definition fire (doc : TextDocument) (tree : nat) : M unit :=
  λ s, (Some tt,
        log (EvParseDone doc tree
               (LRUMap.peek (uri doc) (_cache s) ≫= (λ r, entries s !! r))) s).

(** *** The cache of [Trees] *)

(** trees.ts, line 26 *)
Definition size : nat := 200.

(** trees.ts, lines 27-31: the [dispose] hook of the cache. *)
Definition cache_dispose (evicted : list (string * nat)) : M unit :=
  forEach (λ '(_, value), do e <- read_entry value ; tree_delete (entry_tree e))
          evicted.

Definition cache_get (k : string) : M (option nat) :=
  λ s, let '(v, c) := LRUMap.get k (_cache s) in (Some v, with_cache c s).

Definition cache_set (k : string) (r : nat) : M unit :=
  λ s, let '(c, evicted) := LRUMap.set size k r (_cache s) in
       cache_dispose evicted (with_cache c s).

Definition cache_delete (k : string) : M unit :=
  λ s, let '(c, removed) := LRUMap.delete k (_cache s) in
       cache_dispose removed (with_cache c s).

(** *** [Trees] *)

(** trees.ts, lines 127-130 *)
Definition _asTsPoint (position : Position) : Point :=
  mkPoint (line position) (character position).

(** trees.ts, lines 116-125.  [change.text.length] is the length of the
    replacement text. *)
Definition _asEdits (event : TextDocumentChange2) : list Edit :=
  map (λ change,
    {| startPosition := _asTsPoint (range_start (range change));
       oldEndPosition := _asTsPoint (range_end (range change));
       newEndPosition :=
         _asTsPoint (positionAt (document event)
                       (rangeOffset change + Z.of_nat (String.length (text change))));
       startIndex := rangeOffset change;
       oldEndIndex := rangeOffset change + rangeLength change;
       newEndIndex := rangeOffset change + Z.of_nat (String.length (text change)) |})
    (changes event).

(** trees.ts, lines 41-46: the listener on [onDidChangeContent2]. *)
Definition on_change (e : TextDocumentChange2) : M unit :=
  do info <- cache_get (uri (document e)) ;
  match info with
  | Some r =>
      do i <- read_entry r ;
      write_entry r (mkEntry (entry_version i) (entry_tree i)
                             (entry_edits i ++ [_asEdits e]))
  | None => ret tt
  end.

(** A change notification reaches the listener while it is attached. *)
Definition onDidChangeContent2 (e : TextDocumentChange2) : M unit :=
  λ s, if _listener s then on_change e s else (Some tt, s).

(** trees.ts, lines 49-56 *)
Definition dispose : M unit :=
  do items <- (λ s, (Some (LRUMap.values (_cache s)), s)) ;
  call forEach (λ item, do i <- read_entry item ; tree_delete (entry_tree i)) items ;
  (λ s, (Some tt, with_listener false s)).

(** trees.ts, lines 92-100: the incremental branch. *)
Definition parse_incremental (r : nat) (v : Z) (txt : string) : M unit :=
  do i <- read_entry r ;
  let oldTree := entry_tree i in
  let deltas := concat (entry_edits i) in
  call forEach (λ delta, tree_edit oldTree delta) deltas ;
  call write_entry r (mkEntry (entry_version i) (entry_tree i) []) ;
  do t <- parser_parse txt (Some oldTree) ;
  call write_entry r (mkEntry (entry_version i) t []) ;
  call write_entry r (mkEntry v t []) ;
  tree_delete oldTree.

(** trees.ts, lines 85-89: the fresh branch; the result is the new [info]. *)
Definition parse_fresh (u : string) (v : Z) (txt : string) : M nat :=
  do tree <- parser_parse txt None ;
  do info <- new_Entry v tree [] ;
  call cache_set u info ;
  ret info.

(** trees.ts, lines 75-114.  [info?.version] is [undefined] when there
    is no entry, and [undefined] is not a version. *)
Definition _parse (documentOrUri : TextDocument) : M (option nat) :=
  do info <- cache_get (uri documentOrUri) ;
  do info_version <- match info with
                     | Some r => do i <- read_entry r ; ret (Some (entry_version i))
                     | None => ret None
                     end ;
  if decide (info_version = Some (version documentOrUri)) then
    match info with
    | Some r => do i <- read_entry r ; ret (Some (entry_tree i))
    | None => throw
    end
  else
    try_catch
      (let v := version documentOrUri in
       let txt := getText documentOrUri in
       do info <- match info with
                  | None => parse_fresh (uri documentOrUri) v txt
                  | Some r => call parse_incremental r v txt ; ret r
                  end ;
       do i <- read_entry info ;
       call fire documentOrUri (entry_tree i) ;
       do i <- read_entry info ;
       ret (Some (entry_tree i)))
      (call cache_delete (uri documentOrUri) ; ret None).

(** trees.ts, lines 62-73, the synchronous overload. *)
Definition getParseTree (documentOrUri : TextDocument) : M (option nat) :=
  _parse documentOrUri.

(** trees.ts, lines 62-69, the overload for a URI.  [retrieved] is what
    [this._documents.retrieve(uri)] settles to: [None] when the promise
    rejects, [Some None] when the document does not exist, [Some (Some doc)]
    otherwise.  The continuation runs in the state of that moment; a
    rejection is passed on to the caller. *)
Definition getParseTree_uri (retrieved : option (option TextDocument))
  : M (option nat) :=
  match retrieved with
  | None => throw
  | Some None => ret None
  | Some (Some doc) => _parse doc
  end.

(** *** Histories of a [Trees] object *)

(** What the language server does with a [Trees] object before it disposes
    of it: it asks for trees and it forwards change notifications. *)
Inductive Op :=
| GetParseTree (doc : TextDocument)
| DidChangeContent (e : TextDocumentChange2).

Definition step (s : State) (o : Op) : State :=
  match o with
  | GetParseTree doc => (getParseTree doc s).2
  | DidChangeContent e => (onDidChangeContent2 e s).2
  end.

Definition steps (ops : list Op) (s : State) : State :=
  foldl step s ops.

(** The entry of a URI, read through the cache without touching recency. *)
Definition entry_of (s : State) (u : string) : option Entry :=
  LRUMap.peek u (_cache s) ≫= (λ r, entries s !! r).

(** *** Reading the trace *)

Definition is_delete (t : nat) (ev : Event) : bool :=
  match ev with
  | EvDelete t' => bool_decide (t' = t)
  | _ => false
  end.

(** Number of calls of [tree.delete()] on the tree [t]. *)
Definition releases (t : nat) (tr : list Event) : nat :=
  length (filter (λ ev, is_delete t ev = true) tr).

(** The call [ev] hands the tree [t] to the engine or to a subscriber. *)
Definition reads (t : nat) (ev : Event) : bool :=
  match ev with
  | EvParse _ (Some t') _ => bool_decide (t' = t)
  | EvEdit t' _ => bool_decide (t' = t)
  | EvParseDone _ t' _ => bool_decide (t' = t)
  | _ => false
  end.

Definition mentions (t : nat) (ev : Event) : bool :=
  match ev with
  | EvParse _ _ (Some t') => bool_decide (t' = t) || reads t ev
  | EvDelete t' => bool_decide (t' = t)
  | _ => reads t ev
  end.

(** No tree is read once it has been released. *)
Definition no_read_after_release (tr : list Event) : Prop :=
  ∀ tr1 ev tr2 t,
    tr = tr1 ++ ev :: tr2 → reads t ev = true → releases t tr1 = 0%nat.

Definition is_parse_done (ev : Event) : bool :=
  match ev with
  | EvParseDone _ _ _ => true
  | _ => false
  end.

(** Folding a list of edits into the contents of a tree, in the order of
    the list; [None] when the engine throws on one of them. *)
Definition fold_edits (d : TreeData) (deltas : list Edit) : option TreeData :=
  foldl (λ acc delta, acc ≫= (λ d', ts_edit d' delta)) (Some d) deltas.

(** What the engine answers to a request for the tree of [doc] that is not
    served from the cache: the fresh parse when the URI has no entry, the
    incremental parse of the old tree with the pending edits folded in
    otherwise.  [None] when one of the calls throws. *)
Definition engine_outcome (s : State) (doc : TextDocument) : option TreeData :=
  match entry_of s (uri doc) with
  | None => ts_parse (getText doc) None
  | Some i =>
      trees s !! entry_tree i ≫= λ d,
      fold_edits d (concat (entry_edits i)) ≫= λ d',
      ts_parse (getText doc) (Some d')
  end.

(** The trees of the [Entry] objects behind a list of references. *)
Definition entry_trees (h : gmap nat Entry) (refs : list nat) : list nat :=
  omap (λ r, entry_tree <$> h !! r) refs.

(** The engine calls of a failed incremental parse. *)
Definition failed_call (told : nat) (txt : string) (ev : Event) : Prop :=
  (∃ delta, ev = EvEdit told delta) ∨ ev = EvParse txt (Some told) None.

(** The same, event by event: every tree read by an event of [evs] has not
    been released by the events before it, [pre] included. *)
Fixpoint reads_live (pre evs : list Event) : Prop :=
  match evs with
  | [] => True
  | ev :: evs' =>
      (∀ t, reads t ev = true → releases t pre = 0%nat) ∧
      reads_live (pre ++ [ev]) evs'
  end.

(** Every parse-completed event of [evs] carries the tree and the version
    that the cache entry of its document held when it fired. *)
Definition fired_after_update (evs : list Event) : Prop :=
  ∀ doc t seen, EvParseDone doc t seen ∈ evs →
    ∃ e, seen = Some e ∧ entry_tree e = t ∧ entry_version e = version doc.

(** The cache holds the tree [t]. *)
Definition holds (s : State) (t : nat) : Prop :=
  ∃ k r e, (k, r) ∈ _cache s ∧ entries s !! r = Some e ∧ entry_tree e = t.

(** The ownership discipline of the cache. *)
Record Inv (s : State) : Prop := mkInv {
  inv_keys : NoDup (_cache s).*1;
  inv_refs : ∀ k r, (k, r) ∈ _cache s → is_Some (entries s !! r);
  inv_inj : ∀ k1 r1 e1 k2 r2 e2,
      (k1, r1) ∈ _cache s → entries s !! r1 = Some e1 →
      (k2, r2) ∈ _cache s → entries s !! r2 = Some e2 →
      entry_tree e1 = entry_tree e2 → k1 = k2;
  inv_held : ∀ t, holds s t →
      t ∈ dom (trees s) ∧ releases t (trace s) = 0%nat;
  inv_gone : ∀ t, t ∈ dom (trees s) → ¬ holds s t →
      releases t (trace s) = 1%nat;
  inv_alloc : ∀ ev t, ev ∈ trace s → mentions t ev = true →
      t ∈ dom (trees s);
  inv_reads : no_read_after_release (trace s)
}.

End Trees.
Arguments State : clear implicits.
Arguments M : clear implicits.
End Trees.

(** ** A small engine on which the definitions can be run *)

Module Sample.

(** A tree remembers the text it was parsed from and the edits folded into
    it since.  Parsing throws on the text [boom]; an edit throws on a
    negative start index. *)
Definition TreeData : Type := string * list Edit.

Definition ts_parse (txt : string) (old : option TreeData) : option TreeData :=
  if decide (txt = "boom") then None else Some (txt, []).

Definition ts_edit (d : TreeData) (delta : Edit) : option TreeData :=
  if decide (startIndex delta < 0) then None else Some (d.1, d.2 ++ [delta]).

(** Documents of a single line. *)
Definition positionAt (doc : TextDocument) (offset : Z) : Position :=
  mkPosition 0 (Z.max 0 (Z.min offset (Z.of_nat (String.length (getText doc))))).

Definition doc_a1 : TextDocument := mkDoc "a" 1 "fun".
Definition doc_a2 : TextDocument := mkDoc "a" 2 "fun x".
Definition doc_b1 : TextDocument := mkDoc "b" 1 "const".
Definition doc_a3_boom : TextDocument := mkDoc "a" 3 "boom".

(** Typing [ x] at the end of [fun]. *)
Definition change_a2 : TextDocumentChange2 :=
  mkChange2 doc_a2
    [mkChange (mkRange (mkPosition 0 3) (mkPosition 0 3)) 3 0 " x"].

(** The same typing as two changes of one notification: a blank, then [x]. *)
Definition change_a2_two : TextDocumentChange2 :=
  mkChange2 doc_a2
    [mkChange (mkRange (mkPosition 0 3) (mkPosition 0 3)) 3 0 " ";
     mkChange (mkRange (mkPosition 0 4) (mkPosition 0 4)) 4 0 "x"].

Definition step := Trees.step ts_parse ts_edit positionAt.
Definition steps := Trees.steps ts_parse ts_edit positionAt.

(** [a] and [b] have been parsed once. *)
Definition state_ab : Trees.State TreeData :=
  steps [Trees.GetParseTree doc_a1; Trees.GetParseTree doc_b1] Trees.init.

(** Then [a] has changed. *)
Definition state_ab_edited : Trees.State TreeData :=
  steps [Trees.DidChangeContent change_a2] state_ab.

(** [a] has changed by two edits that arrived as one batch. *)
Definition state_ab_two : Trees.State TreeData :=
  steps [Trees.DidChangeContent change_a2_two] state_ab.

End Sample.

(** ** Queries for global declarations *)

Module Globals.

(** The characters of a capture name in a tree-sitter query. *)
Definition is_name_char (a : Ascii.ascii) : bool :=
  let n := nat_of_ascii a in
  ((48 <=? n) && (n <=? 57) || (65 <=? n) && (n <=? 90) ||
   (97 <=? n) && (n <=? 122) || (n =? 95) || (n =? 45) || (n =? 46))%nat.

Fixpoint take_name (src : string) : string :=
  match src with
  | String a rest => if is_name_char a then String a (take_name rest) else EmptyString
  | EmptyString => EmptyString
  end.

(** The capture names [@name] that a query source declares, in order. *)
Fixpoint capture_names (src : string) : list string :=
  match src with
  | String a rest =>
      if Ascii.eqb a "@"%char then take_name rest :: capture_names rest
      else capture_names rest
  | EmptyString => []
  end.



(** globals.ts, lines 5-9: the text of the template literal. *)
Definition query_source : string :=
"
(function_definition name: (function_name) @function)
(global_var_declaration name: (identifier) @globalVar)
(constant_declaration name: (identifier) @const)
".

Section Globals.

(** web-tree-sitter: syntax nodes, compiled queries, [language.query]
    ([None] when it throws) and [Query.captures]. *)
Context {SyntaxNode : Type}.
Variable node_text : SyntaxNode → string.
Variable node_startPosition : SyntaxNode → Point.
Variable node_endPosition : SyntaxNode → Point.
Context {Query : Type}.
Variable ts_query : string → option Query.
Variable ts_captures : Query → SyntaxNode → list (string * SyntaxNode).

(** [Parser.QueryCapture] *)
Definition capture_name (a : string * SyntaxNode) : string := a.1.
Definition capture_node (a : string * SyntaxNode) : SyntaxNode := a.2.

(** The object literal built by [queryGlobals]. *)
Record QueryMatch := mkMatch {
  match_text : string;
  match_type : string;
  match_range : Range;
  match_node : SyntaxNode
}.

(** Modelled from the spec: [asLspRange] of [utils/position] is not among
    the sources; the range of a match is the start and end line and column
    of the node. *)
Definition asLspRange (node : SyntaxNode) : Range :=
  mkRange
    (mkPosition (row (node_startPosition node)) (column (node_startPosition node)))
    (mkPosition (row (node_endPosition node)) (column (node_endPosition node))).

(** Modelled from the spec: [parserQuery] of [queries/utils/parserQuery] is
    not among the sources; the patterns are compiled once, on first use, and
    the compiled query is kept.  The state is the kept query. *)
Definition parserQuery (src : string) (kept : option Query)
  : option Query * option Query :=
  match kept with
  | Some q => (Some q, Some q)
  | None =>
      match ts_query src with
      | Some q => (Some q, Some q)
      | None => (None, None)
      end
  end.

(** globals.ts, line 5 *)
Definition query := parserQuery query_source.

(** globals.ts, lines 11-18.  The first component is [None] when the call
    throws. *)
Definition queryGlobals (node : SyntaxNode) (kept : option Query)
  : option (list QueryMatch) * option Query :=
  match query kept with
  | (Some q, kept') =>
      (Some (map (λ a, {| match_text := node_text (capture_node a);
                          match_type := capture_name a;
                          match_range := asLspRange (capture_node a);
                          match_node := capture_node a |})
                 (ts_captures q node)),
       kept')
  | (None, kept') => (None, kept')
  end.



End Globals.
Arguments QueryMatch : clear implicits.
End Globals.

(** ** A small query engine on which [queryGlobals] can be run *)

Module SampleQuery.

(** A node: its kind, its text, where it starts and where it ends. *)
Record SyntaxNode := mkNode {
  kind : string;
  node_text : string;
  node_startPosition : Point;
  node_endPosition : Point
}.

(** A compiled query is the list of its capture names. *)
Definition Query : Type := list string.

Definition ts_query (src : string) : option Query :=
  Some (Globals.capture_names src).

(** A function name is captured as the first name of the query, any other
    identifier as the second. *)
Definition ts_captures (q : Query) (node : SyntaxNode)
  : list (string * SyntaxNode) :=
  match q with
  | fn :: gv :: _ =>
      if decide (kind node = "function_name") then [(fn, node)]
      else if decide (kind node = "identifier") then [(gv, node)]
      else []
  | _ => []
  end.

Definition main_name : SyntaxNode :=
  mkNode "function_name" "main" (mkPoint 0 4) (mkPoint 0 8).

Definition queryGlobals :=
  Globals.queryGlobals node_text node_startPosition node_endPosition
    ts_query ts_captures.

End SampleQuery.

(** ** A query engine over trees *)

Module SampleTree.

(** A node with its children. *)
Inductive SyntaxNode :=
| mkNode (kind text : string) (startPosition endPosition : Point)
         (children : list SyntaxNode).

Definition kind (n : SyntaxNode) : string :=
  match n with mkNode k _ _ _ _ => k end.
Definition node_text (n : SyntaxNode) : string :=
  match n with mkNode _ t _ _ _ => t end.
Definition node_startPosition (n : SyntaxNode) : Point :=
  match n with mkNode _ _ p _ _ => p end.
Definition node_endPosition (n : SyntaxNode) : Point :=
  match n with mkNode _ _ _ p _ => p end.

Definition Query : Type := list string.

Definition ts_query (src : string) : option Query :=
  Some (Globals.capture_names src).

(** The function names and the identifiers below a node, parents before
    children and children from left to right. *)
Fixpoint captures_of (fn gv : string) (n : SyntaxNode)
  : list (string * SyntaxNode) :=
  match n with
  | mkNode k _ _ _ children =>
      (if decide (k = "function_name") then [(fn, n)]
       else if decide (k = "identifier") then [(gv, n)]
       else []) ++
      flat_map (captures_of fn gv) children
  end.

Definition ts_captures (q : Query) (n : SyntaxNode)
  : list (string * SyntaxNode) :=
  match q with
  | fn :: gv :: _ => captures_of fn gv n
  | _ => []
  end.

Definition main_name : SyntaxNode :=
  mkNode "function_name" "main" (mkPoint 0 4) (mkPoint 0 8) [].


Definition queryGlobals :=
  Globals.queryGlobals node_text node_startPosition node_endPosition
    ts_query ts_captures.

End SampleTree.

(** ** The client: requests served to the language server *)

Module Extension.

(** [vscode.FileType] *)
Definition FileType_File : Z := 1.
Definition FileType_Directory : Z := 2.

(** [String.prototype.startsWith] *)
Definition startsWith (s search : string) : bool := String.prefix search s.

(** [String.prototype.endsWith]: [search] is [s] or the end of a tail of [s]. *)
Fixpoint endsWith (s search : string) : bool :=
  String.eqb s search ||
  match s with
  | String _ rest => endsWith rest search
  | EmptyString => false
  end.

(** [String.prototype.split] for a separator of one character, as [path.sep]
    is: the segments between the separators, at least one. *)
Fixpoint split (sep : Ascii.ascii) (s : string) : list string :=
  match s with
  | EmptyString => [EmptyString]
  | String c rest =>
      if Ascii.eqb c sep then EmptyString :: split sep rest
      else match split sep rest with
           | seg :: segs => String c seg :: segs
           | [] => [String c EmptyString]
           end
  end.

(** The character [c] occurs in [s]. *)
Fixpoint occurs (c : Ascii.ascii) (s : string) : bool :=
  match s with
  | EmptyString => false
  | String a rest => Ascii.eqb a c || occurs c rest
  end.

(** [Array.prototype.slice(0, end)] for an integer [end]: a negative [end]
    counts from the end of the array. *)
Definition slice0 {A} (e : Z) (l : list A) : list A :=
  let len := Z.of_nat (length l) in
  let k := if e <? 0 then Z.max (len + e) 0 else Z.min e len in
  take (Z.to_nat k) l.

(** [vscode.Memento]: [get(key, defaultValue)] and [update(key, value)] of
    [context.workspaceState], for string values. *)
Definition Memento_get (ws : gmap string string) (key dflt : string) : string :=
  default dflt (ws !! key).
Definition Memento_update (ws : gmap string string) (key value : string)
  : gmap string string :=
  <[key := value]> ws.

(** extension.ts, line 36: the name of the database; [rnd] is
    [Math.random().toString(32).slice(2)]. *)
Definition databaseName (ws : gmap string string) (rnd : string) : string :=
  Memento_get ws "dbName" ("func_" +:+ rnd).

(** extension.ts, lines 36-37: what [startServer] leaves in the workspace
    state. *)
Definition startServer_workspaceState (ws : gmap string string) (rnd : string)
  : gmap string string :=
  Memento_update ws "dbName" (databaseName ws rnd).

(** extension.ts, line 176; [configured] is the setting [func.symbolIndexSize]
    when it is set. *)
Definition symbolIndexSize (configured : option Z) : Z :=
  Z.max 0 (default 500 configured).

(** extension.ts, line 181: the files announced with [queue/init]. *)
Definition init_uris (configured : option Z) (all : list string) : list string :=
  slice0 (symbolIndexSize configured) all.

Section MatchingFiles.

(** [path.sep] *)
Variable sep : Ascii.ascii.

(** extension.ts, line 131: [raw.pathPrefix.split(path.sep).pop() ?? ''] *)
Definition toSearch (pathPrefix : string) : string :=
  List.last (split sep pathPrefix) EmptyString.

(** extension.ts, lines 136-140: the filter on the entries of the directory. *)
Definition keep (search : string) (entry : string * Z) : bool :=
  let '(path, type) := entry in
  if String.eqb path search then false
  else startsWith path search &&
       (negb (type =? FileType_File) || endsWith path ".fc").

(** extension.ts, lines 141-146 *)
Definition label (entry : string * Z) : string :=
  let '(segment, type) := entry in
  if type =? FileType_Directory then segment +:+ String sep EmptyString
  else segment.

(** extension.ts, lines 128-150: the answer to [completion/matching-files];
    [readDirectory] is the outcome of [vscode.workspace.fs.readDirectory] on
    the directory to search, [None] when it throws. *)
Definition matching_files (readDirectory : option (list (string * Z)))
    (pathPrefix : string) : list string :=
  match readDirectory with
  | Some files => map label (List.filter (keep (toSearch pathPrefix)) files)
  | None => []
  end.

End MatchingFiles.
End Extension.

(** * Properties *)

(** ** The bounded cache *)

Module LRUMapFacts.
Section LRUMapFacts.
Context {K V : Type} `{EqDecision K}.
Implicit Types (k : K) (v : V) (m : LRUMap.t K V).

Lemma peek_Some_elem k v m : LRUMap.peek k m = Some v → (k, v) ∈ m.
Proof.
  induction m as [|[k' v'] m IH]; simpl; [done|].
  case_decide as Hk.
  - intros [= ->]. subst. left.
  - intros Hp. right. by apply IH.
Qed.

Lemma peek_None k m : LRUMap.peek k m = None ↔ k ∉ m.*1.
Proof.
  induction m as [|[k' v'] m IH]; simpl.
  - split; [intros _; apply not_elem_of_nil | done].
  - rewrite not_elem_of_cons. case_decide as Hk; [|tauto].
    split; [done | intros [? _]; done].
Qed.

Lemma elem_peek k v m : NoDup m.*1 → (k, v) ∈ m → LRUMap.peek k m = Some v.
Proof.
  induction m as [|[k' v'] m IH]; simpl.
  - intros _ Hin. by apply elem_of_nil in Hin.
  - intros [Hk' Hnd]%NoDup_cons [Heq|Hin]%elem_of_cons.
    + injection Heq as -> ->. by rewrite decide_True.
    + case_decide as Hk; [|by apply IH].
      subst. exfalso. apply Hk'. apply list_elem_of_fmap.
      by exists (k', v).
Qed.

Lemma elem_remove k k' v m :
  (k', v) ∈ LRUMap.remove k m ↔ (k', v) ∈ m ∧ k' ≠ k.
Proof. unfold LRUMap.remove. rewrite list_elem_of_filter. simpl. tauto. Qed.

Lemma peek_app k m1 m2 :
  LRUMap.peek k (m1 ++ m2) =
  match LRUMap.peek k m1 with Some v => Some v | None => LRUMap.peek k m2 end.
Proof.
  induction m1 as [|[k' v'] m1 IH]; simpl; [done|]. by case_decide.
Qed.

Lemma peek_remove_eq k m : LRUMap.peek k (LRUMap.remove k m) = None.
Proof.
  apply peek_None. intros ([k' v] & Hk & Hin)%list_elem_of_fmap.
  simpl in Hk. subst k'. by apply elem_remove in Hin as [_ ?].
Qed.

Lemma peek_remove_ne k k' m :
  k' ≠ k → LRUMap.peek k' (LRUMap.remove k m) = LRUMap.peek k' m.
Proof.
  intros Hne. unfold LRUMap.remove.
  induction m as [|[k1 v1] m IH]; [done|].
  rewrite filter_cons. simpl. case_decide as Hk1; simpl.
  - case_decide; [done | apply IH].
  - subst k1. rewrite decide_False; [apply IH | done].
Qed.

Lemma remove_absent k m : LRUMap.peek k m = None → LRUMap.remove k m = m.
Proof.
  intros Hp%peek_None. unfold LRUMap.remove.
  induction m as [|[k1 v1] m IH]; [done|].
  rewrite fmap_cons, not_elem_of_cons in Hp. destruct Hp as [Hne Hp].
  rewrite filter_cons_True; [|simpl; intros ->; by apply Hne]. by rewrite IH.
Qed.

Lemma NoDup_remove k m : NoDup m.*1 → NoDup (LRUMap.remove k m).*1.
Proof.
  unfold LRUMap.remove. induction m as [|[k1 v1] m IH]; [done|].
  intros [Hk1 Hnd]%NoDup_cons. rewrite filter_cons. simpl.
  case_decide; [|by apply IH]. simpl. apply NoDup_cons. split; [|by apply IH].
  intros ([k2 v2] & Hk & Hin)%list_elem_of_fmap. simpl in Hk. subst k2.
  apply list_elem_of_filter in Hin as [_ Hin]. apply Hk1.
  apply list_elem_of_fmap. by exists (k1, v2).
Qed.

(** Looking a key up right after [get]: the same value for every key. *)
Lemma peek_get k k' m : LRUMap.peek k' (LRUMap.get k m).2 = LRUMap.peek k' m.
Proof.
  unfold LRUMap.get. destruct (LRUMap.peek k m) as [v|] eqn:Hp; [|done].
  simpl. rewrite peek_app. destruct (decide (k' = k)) as [->|Hne].
  - rewrite peek_remove_eq. simpl. by rewrite decide_True.
  - rewrite peek_remove_ne by done. simpl. rewrite decide_False by done.
    by destruct (LRUMap.peek k' m).
Qed.

Lemma get_fst k m : (LRUMap.get k m).1 = LRUMap.peek k m.
Proof. unfold LRUMap.get. by destruct (LRUMap.peek k m). Qed.

(** After [set] on a cache of positive capacity the key is present. *)
Lemma peek_set_eq n k v m :
  (0 < n)%nat → LRUMap.peek k (LRUMap.set n k v m).1 = Some v.
Proof.
  intros Hn. unfold LRUMap.set. destruct (LRUMap.peek k m) as [v'|] eqn:Hp.
  - simpl. rewrite peek_app, peek_remove_eq. simpl. by rewrite decide_True.
  - case_decide as Hfull.
    + destruct m as [|[k1 v1] m]; simpl.
      * by rewrite decide_True.
      * simpl in Hp. case_decide; [done|].
        rewrite peek_app, Hp. simpl. by rewrite decide_True.
    + simpl. rewrite peek_app, Hp. simpl. by rewrite decide_True.
Qed.

Lemma peek_delete_eq k m : LRUMap.peek k (LRUMap.delete k m).1 = None.
Proof.
  unfold LRUMap.delete. destruct (LRUMap.peek k m) eqn:Hp; simpl; [|done].
  apply peek_remove_eq.
Qed.

Lemma peek_delete_ne k k' m :
  k' ≠ k → LRUMap.peek k' (LRUMap.delete k m).1 = LRUMap.peek k' m.
Proof.
  intros Hne. unfold LRUMap.delete.
  destruct (LRUMap.peek k m) eqn:Hp; simpl; [|done].
  by apply peek_remove_ne.
Qed.

Lemma get_present k v m :
  LRUMap.peek k m = Some v →
  LRUMap.get k m = (Some v, LRUMap.remove k m ++ [(k, v)]).
Proof. unfold LRUMap.get. by intros ->. Qed.

Lemma remove_touched k v m :
  LRUMap.remove k (LRUMap.remove k m ++ [(k, v)]) = LRUMap.remove k m.
Proof.
  unfold LRUMap.remove at 1. rewrite filter_app.
  rewrite filter_cons_False by (simpl; tauto).
  rewrite filter_nil, app_nil_r. apply remove_absent, peek_remove_eq.
Qed.

Lemma delete_touched k v m :
  LRUMap.delete k (LRUMap.remove k m ++ [(k, v)]) = (LRUMap.remove k m, [(k, v)]).
Proof.
  unfold LRUMap.delete. rewrite peek_app, peek_remove_eq. simpl.
  rewrite decide_True by done. by rewrite remove_touched.
Qed.

Lemma elem_touch k v m k' v' :
  NoDup m.*1 → LRUMap.peek k m = Some v →
  (k', v') ∈ LRUMap.remove k m ++ [(k, v)] ↔ (k', v') ∈ m.
Proof.
  intros Hnd Hp. rewrite elem_of_app, elem_remove, list_elem_of_singleton.
  split.
  - intros [[? _]|[= -> ->]]; [done | by apply peek_Some_elem].
  - intros Hin. destruct (decide (k' = k)) as [->|Hne]; [|by left].
    right. apply (elem_peek _ _ _ Hnd) in Hin. congruence.
Qed.

Lemma NoDup_touch k v m :
  NoDup m.*1 → NoDup (LRUMap.remove k m ++ [(k, v)]).*1.
Proof.
  intros Hnd. rewrite fmap_app. apply NoDup_app. split; [by apply NoDup_remove|].
  split; [|apply NoDup_singleton].
  intros k' Hin ->%list_elem_of_singleton.
  by apply (peek_None k (LRUMap.remove k m)) in Hin; [|apply peek_remove_eq].
Qed.

(** Inserting a new key: the entries handed to [dispose] are at the least
    recently used end, and there is at most one of them. *)
Lemma set_absent n k v m :
  LRUMap.peek k m = None →
  ∃ evicted rest,
    m = evicted ++ rest ∧ (length evicted ≤ 1)%nat ∧
    LRUMap.set n k v m = (rest ++ [(k, v)], evicted).
Proof.
  intros Hp. unfold LRUMap.set. rewrite Hp. case_decide as Hfull.
  - destruct m as [|lru m].
    + exists [], []. simpl. split; [done|]. split; [lia | done].
    + exists [lru], m. simpl. split; [done|]. split; [lia | done].
  - exists [], m. simpl. split; [done|]. split; [lia | done].
Qed.

End LRUMapFacts.
End LRUMapFacts.

(** ** The parse orchestrator *)

Module TreesFacts.
Import Trees LRUMapFacts.
Section TreesFacts.
Context {TreeData : Type}.
Variable ts_parse : string → option TreeData → option TreeData.
Variable ts_edit : TreeData → Edit → option TreeData.
Variable positionAt : TextDocument → Z → Position.

Abbreviation State := (Trees.State TreeData).
Notation "'do' x <- m ; k" := (bind m (λ x, k))
  (at level 10, x name, m at level 100, k at level 200).
Notation "'call' m ; k" := (bind m (λ _, k))
  (at level 10, m at level 100, k at level 200).
Implicit Types (s : State) (doc : TextDocument) (t r : nat) (i : Entry)
  (d : TreeData) (deltas : list Edit) (tr : list Event).

(** *** Running the monad *)

Lemma bind_ok {A B} (m : M TreeData A) (f : A → M TreeData B) s a s' :
  m s = (Some a, s') → bind m f s = f a s'.
Proof. unfold bind. by intros ->. Qed.

Lemma bind_throw {A B} (m : M TreeData A) (f : A → M TreeData B) s s' :
  m s = (None, s') → bind m f s = (None, s').
Proof. unfold bind. by intros ->. Qed.

Lemma state_eta s :
  mkState (_cache s) (entries s) (trees s) (trace s) (_listener s) = s.
Proof. by destruct s. Qed.

(** *** Folding edits *)

Lemma fold_edits_None deltas :
  foldl (λ acc delta, acc ≫= (λ d', ts_edit d' delta)) None deltas = None.
Proof. induction deltas as [|x l IH]; simpl; [done | apply IH]. Qed.

Lemma fold_edits_cons d delta deltas :
  fold_edits ts_edit d (delta :: deltas) =
  ts_edit d delta ≫= λ d1, fold_edits ts_edit d1 deltas.
Proof.
  unfold fold_edits. simpl. destruct (ts_edit d delta); simpl; [done|].
  apply fold_edits_None.
Qed.

(** All edits succeed: the tree holds the folded contents and the engine
    has seen the edits in the order of the list. *)
Lemma forEach_edit_ok t deltas : ∀ s d d',
  trees s !! t = Some d →
  fold_edits ts_edit d deltas = Some d' →
  forEach (tree_edit ts_edit t) deltas s =
  (Some tt, mkState (_cache s) (entries s) (<[t := d']> (trees s))
                    (trace s ++ map (EvEdit t) deltas) (_listener s)).
Proof.
  induction deltas as [|delta deltas IH]; intros s d d' Ht Hfold.
  - injection Hfold as <-. simpl. unfold ret.
    rewrite insert_id by done. rewrite app_nil_r. by rewrite state_eta.
  - rewrite fold_edits_cons in Hfold.
    destruct (ts_edit d delta) as [d1|] eqn:Hd1; [|done]. simpl in Hfold.
    cbn [forEach].
    erewrite bind_ok; last first.
    { unfold tree_edit. rewrite Ht. simpl. rewrite Hd1. reflexivity. }
    erewrite IH; [| apply lookup_insert_eq | done]. simpl.
    rewrite insert_insert_eq. by rewrite <- app_assoc.
Qed.

(** Whatever the outcome, folding edits touches one tree and extends the
    trace by edits of that tree. *)
Lemma forEach_edit_frame t deltas : ∀ s,
  ∃ n trees',
    (forEach (tree_edit ts_edit t) deltas s).2 =
      mkState (_cache s) (entries s) trees'
              (trace s ++ map (EvEdit t) (take n deltas)) (_listener s) ∧
    dom trees' = dom (trees s) ∧
    (∀ t', t' ≠ t → trees' !! t' = trees s !! t').
Proof.
  induction deltas as [|delta deltas IH]; intros s.
  - exists 0%nat, (trees s). simpl. rewrite app_nil_r, state_eta. done.
  - cbn [forEach]. unfold bind at 1. unfold tree_edit at 1.
    destruct (trees s !! t ≫= λ d, ts_edit d delta) as [d1|] eqn:Hd1.
    + destruct (IH (with_trees (<[t:=d1]> (trees (log (EvEdit t delta) s)))
                               (log (EvEdit t delta) s)))
        as (n & trees' & Heq & Hdom & Hother).
      exists (S n), trees'. rewrite Heq. simpl. rewrite <- app_assoc. simpl.
      split; [done|]. simpl in Hdom, Hother. split.
      * rewrite Hdom, dom_insert_L.
        destruct (trees s !! t) as [d|] eqn:Ht; [|done].
        apply elem_of_dom_2 in Ht. set_solver.
      * intros t' Hne. rewrite Hother by done. by rewrite lookup_insert_ne.
    + by exists 1%nat, (trees s).
Qed.

(** *** Releasing the trees of a list of entries *)

Lemma forEach_delete_ok (refs : list nat) : ∀ s,
  (∀ r, r ∈ refs → is_Some (entries s !! r)) →
  forEach (λ item, do i <- read_entry item ; tree_delete (entry_tree i)) refs s =
  (Some tt, mkState (_cache s) (entries s) (trees s)
              (trace s ++ map EvDelete (entry_trees (entries s) refs))
              (_listener s)).
Proof.
  induction refs as [|r refs IH]; intros s Hrefs.
  - simpl. unfold ret. by rewrite app_nil_r, state_eta.
  - destruct (Hrefs r) as [i Hi]; [left|].
    cbn [forEach]. erewrite bind_ok; last first.
    { erewrite bind_ok; [|unfold read_entry; by rewrite Hi]. reflexivity. }
    rewrite IH; [|intros r' Hr'; apply Hrefs; by right].
    unfold entry_trees. simpl. rewrite Hi. simpl. by rewrite <- app_assoc.
Qed.

Lemma forEach_ext {A} (f g : A → M TreeData unit) (l : list A) s :
  (∀ x s', f x s' = g x s') → forEach f l s = forEach g l s.
Proof.
  intros Hfg. revert s. induction l as [|x l IH]; intros s; [done|].
  cbn [forEach]. unfold bind. rewrite Hfg.
  destruct (g x s) as [[[]|] s']; [apply IH | done].
Qed.

Lemma forEach_fmap {A B} (g : A → B) (f : B → M TreeData unit) (l : list A) s :
  forEach f (g <$> l) s = forEach (λ x, f (g x)) l s.
Proof.
  revert s. induction l as [|x l IH]; intros s; [done|].
  cbn [forEach fmap list_fmap]. unfold bind.
  destruct (f (g x) s) as [[[]|] s']; [apply IH | done].
Qed.

Lemma cache_dispose_ok (evicted : list (string * nat)) s :
  (∀ k r, (k, r) ∈ evicted → is_Some (entries s !! r)) →
  cache_dispose evicted s =
  (Some tt, mkState (_cache s) (entries s) (trees s)
              (trace s ++ map EvDelete (entry_trees (entries s) evicted.*2))
              (_listener s)).
Proof.
  intros Hrefs. rewrite <- forEach_delete_ok; last first.
  { intros r ([k r'] & -> & Hin)%list_elem_of_fmap. by eapply Hrefs. }
  unfold cache_dispose. rewrite forEach_fmap. apply forEach_ext.
  by intros [k r] s'.
Qed.

Lemma cache_get_eq k s :
  cache_get k s =
  (Some (LRUMap.peek k (_cache s)), with_cache (LRUMap.get k (_cache s)).2 s).
Proof.
  unfold cache_get. rewrite <- get_fst. by destruct (LRUMap.get k (_cache s)).
Qed.

Lemma cache_set_eq k r s :
  cache_set k r s =
  cache_dispose (LRUMap.set size k r (_cache s)).2
    (with_cache (LRUMap.set size k r (_cache s)).1 s).
Proof. unfold cache_set. by destruct (LRUMap.set size k r (_cache s)). Qed.

Lemma cache_delete_eq k s :
  cache_delete k s =
  cache_dispose (LRUMap.delete k (_cache s)).2
    (with_cache (LRUMap.delete k (_cache s)).1 s).
Proof. unfold cache_delete. by destruct (LRUMap.delete k (_cache s)). Qed.

(** *** The cases of [_parse] *)

(** The entry is up to date. *)
Lemma _parse_hit s doc r i :
  LRUMap.peek (uri doc) (_cache s) = Some r →
  entries s !! r = Some i →
  entry_version i = version doc →
  _parse ts_parse ts_edit doc s =
  (Some (Some (entry_tree i)),
   with_cache (LRUMap.remove (uri doc) (_cache s) ++ [(uri doc, r)]) s).
Proof.
  intros Hpeek Hi Hv. unfold _parse.
  erewrite bind_ok; [|unfold cache_get, LRUMap.get; by rewrite Hpeek].
  erewrite bind_ok; last first.
  { erewrite bind_ok; [|unfold read_entry; simpl; by rewrite Hi]. reflexivity. }
  rewrite decide_True by congruence.
  erewrite bind_ok; [|unfold read_entry; simpl; by rewrite Hi]. done.
Qed.

(** The incremental branch when the engine accepts every call. *)
Lemma parse_incremental_ok s r i d d' dn v txt :
  entries s !! r = Some i →
  trees s !! entry_tree i = Some d →
  fold_edits ts_edit d (concat (entry_edits i)) = Some d' →
  ts_parse txt (Some d') = Some dn →
  let t := fresh (dom (trees s)) in
  parse_incremental ts_parse ts_edit r v txt s =
  (Some tt,
   mkState (_cache s) (<[r := mkEntry v t []]> (entries s))
     (<[t := dn]> (<[entry_tree i := d']> (trees s)))
     (trace s ++ map (EvEdit (entry_tree i)) (concat (entry_edits i)) ++
        [EvParse txt (Some (entry_tree i)) (Some t); EvDelete (entry_tree i)])
     (_listener s)).
Proof.
  intros Hi Hd Hfold Hparse t. unfold parse_incremental.
  erewrite bind_ok; [|unfold read_entry; by rewrite Hi].
  erewrite bind_ok; [|by eapply forEach_edit_ok].
  erewrite bind_ok; [|reflexivity].
  assert (fresh (dom (<[entry_tree i := d']> (trees s))) = t) as Hfresh.
  { unfold t. f_equal. rewrite dom_insert_L.
    apply subseteq_union_1_L, singleton_subseteq_l. by eapply elem_of_dom_2. }
  erewrite bind_ok; last first.
  { unfold parser_parse. simpl. rewrite lookup_insert_eq. simpl.
    rewrite Hparse, Hfresh. reflexivity. }
  erewrite bind_ok; [|reflexivity].
  erewrite bind_ok; [|reflexivity].
  unfold tree_delete, log, with_entries, with_trees. simpl.
  rewrite !insert_insert_eq. rewrite <- !app_assoc. done.
Qed.

Lemma forEach_edit_fail t deltas : ∀ s d,
  trees s !! t = Some d →
  fold_edits ts_edit d deltas = None →
  (forEach (tree_edit ts_edit t) deltas s).1 = None.
Proof.
  induction deltas as [|delta deltas IH]; intros s d Ht Hfold; [done|].
  rewrite fold_edits_cons in Hfold. cbn [forEach].
  destruct (ts_edit d delta) as [d1|] eqn:Hd1; simpl in Hfold.
  - erewrite bind_ok; last first.
    { unfold tree_edit. rewrite Ht. simpl. rewrite Hd1. reflexivity. }
    eapply IH; [apply lookup_insert_eq | done].
  - erewrite bind_throw; [done|].
    unfold tree_edit. rewrite Ht. simpl. rewrite Hd1. reflexivity.
Qed.

(** The incremental branch when the engine throws, on an edit or on the
    parse: the entry still holds the old tree. *)
Lemma parse_incremental_fail s r i d v txt :
  entries s !! r = Some i →
  trees s !! entry_tree i = Some d →
  fold_edits ts_edit d (concat (entry_edits i)) ≫=
    (λ d', ts_parse txt (Some d')) = None →
  ∃ evs h tm e,
    parse_incremental ts_parse ts_edit r v txt s =
      (None, mkState (_cache s) h tm (trace s ++ evs) (_listener s)) ∧
    h !! r = Some e ∧ entry_tree e = entry_tree i ∧
    (∀ r', r' ≠ r → h !! r' = entries s !! r') ∧
    dom tm = dom (trees s) ∧
    (∀ t', t' ≠ entry_tree i → tm !! t' = trees s !! t') ∧
    (∀ ev, ev ∈ evs → failed_call (entry_tree i) txt ev).
Proof.
  intros Hi Hd Hfail. unfold parse_incremental.
  erewrite bind_ok; [|unfold read_entry; by rewrite Hi].
  destruct (fold_edits ts_edit d (concat (entry_edits i))) as [d'|] eqn:Hfold.
  - simpl in Hfail.
    erewrite bind_ok; [|by eapply forEach_edit_ok].
    erewrite bind_ok; [|reflexivity].
    erewrite bind_throw; last first.
    { unfold parser_parse. simpl. rewrite lookup_insert_eq. simpl.
      rewrite Hfail. reflexivity. }
    eexists _, _, _, _. split.
    { unfold log. simpl. rewrite <- app_assoc. reflexivity. }
    split; [apply lookup_insert_eq|]. split; [done|].
    split; [intros r' Hr'; by apply lookup_insert_ne|].
    split.
    { rewrite dom_insert_L.
      apply subseteq_union_1_L, singleton_subseteq_l. by eapply elem_of_dom_2. }
    split; [intros t' Ht'; by apply lookup_insert_ne|].
    intros ev [Hev|Hev]%elem_of_app.
    + apply list_elem_of_fmap in Hev as (delta & -> & _). left. by exists delta.
    + apply list_elem_of_singleton in Hev as ->. by right.
  - destruct (forEach_edit_frame (entry_tree i) (concat (entry_edits i)) s)
      as (n & tm & Heq & Hdom & Hother).
    pose proof (forEach_edit_fail _ _ _ _ Hd Hfold) as Hnone.
    erewrite bind_throw; last first.
    { destruct (forEach _ _ s) as [o s']. simpl in *. subst. reflexivity. }
    eexists _, (entries s), tm, i. split; [reflexivity|].
    do 5 (split; [done|]).
    intros ev (delta & -> & _)%list_elem_of_fmap. left. by exists delta.
Qed.

Lemma set_evicted {V} n (k : string) (v : V) m k0 v0 :
  (k0, v0) ∈ (LRUMap.set n k v m).2 → (k0, v0) ∈ m.
Proof.
  unfold LRUMap.set. destruct (LRUMap.peek k m); simpl.
  - by intros ?%elem_of_nil.
  - case_decide; [|by intros ?%elem_of_nil].
    destruct m as [|lru m]; simpl; [by intros ?%elem_of_nil|].
    intros ->%list_elem_of_singleton. left.
Qed.

(** No entry, and the engine parses the text. *)
Lemma _parse_fresh_ok s doc d :
  LRUMap.peek (uri doc) (_cache s) = None →
  ts_parse (getText doc) None = Some d →
  (∀ k r, (k, r) ∈ _cache s → is_Some (entries s !! r)) →
  let t := fresh (dom (trees s)) in
  let r := fresh (dom (entries s)) in
  let e := mkEntry (version doc) t [] in
  let cs := LRUMap.set size (uri doc) r (_cache s) in
  let h := <[r := e]> (entries s) in
  _parse ts_parse ts_edit doc s =
  (Some (Some t),
   mkState cs.1 h (<[t := d]> (trees s))
     (trace s ++ [EvParse (getText doc) None (Some t)] ++
        map EvDelete (entry_trees h cs.2.*2) ++ [EvParseDone doc t (Some e)])
     (_listener s)).
Proof.
  intros Hpeek Hparse Hrefs t r e cs h. unfold _parse.
  erewrite bind_ok; [|unfold cache_get, LRUMap.get; by rewrite Hpeek].
  erewrite bind_ok; [|reflexivity].
  rewrite decide_False by done.
  unfold try_catch. cbn zeta.
  assert (parse_fresh ts_parse (uri doc) (version doc) (getText doc)
            (with_cache (_cache s) s) =
          (Some r, mkState cs.1 h (<[t := d]> (trees s))
             (trace s ++ [EvParse (getText doc) None (Some t)] ++
                map EvDelete (entry_trees h cs.2.*2)) (_listener s))) as Hfresh.
  { unfold parse_fresh.
    erewrite bind_ok; [|unfold parser_parse; simpl; rewrite Hparse; reflexivity].
    erewrite bind_ok; [|reflexivity].
    erewrite bind_ok; last first.
    { rewrite cache_set_eq. simpl. fold r t e h cs.
      rewrite cache_dispose_ok; [reflexivity|].
      intros k0 r0 Hin. simpl.
      assert ((k0, r0) ∈ _cache s) as Hin'.
      { by eapply (set_evicted size (uri doc) r). }
      destruct (Hrefs _ _ Hin') as [e0 He0].
      exists e0. unfold h. rewrite lookup_insert_ne; [done|].
      intros <-. apply elem_of_dom_2 in He0. by apply is_fresh in He0. }
    simpl. unfold ret. by rewrite <- app_assoc. }
  erewrite bind_ok; [|exact Hfresh].
  assert (h !! r = Some e) as Hr by apply lookup_insert_eq.
  erewrite bind_ok; [|unfold read_entry; simpl; by rewrite Hr].
  erewrite bind_ok; last first.
  { unfold fire. simpl. unfold cs. rewrite peek_set_eq by (unfold size; lia).
    simpl. rewrite Hr. reflexivity. }
  erewrite bind_ok; [|unfold read_entry; simpl; by rewrite Hr].
  unfold ret, log. simpl. by rewrite <- !app_assoc.
Qed.

(** No entry, and the engine throws. *)
Lemma _parse_fresh_fail s doc :
  LRUMap.peek (uri doc) (_cache s) = None →
  ts_parse (getText doc) None = None →
  _parse ts_parse ts_edit doc s =
  (Some None, log (EvParse (getText doc) None None) s).
Proof.
  intros Hpeek Hparse. unfold _parse.
  erewrite bind_ok; [|unfold cache_get, LRUMap.get; by rewrite Hpeek].
  erewrite bind_ok; [|reflexivity].
  rewrite decide_False by done.
  unfold try_catch. cbn zeta.
  erewrite bind_throw; last first.
  { unfold parse_fresh. erewrite bind_throw; [reflexivity|].
    unfold parser_parse. simpl. rewrite Hparse. reflexivity. }
  erewrite bind_ok; last first.
  { unfold cache_delete, LRUMap.delete. simpl. rewrite Hpeek. reflexivity. }
  unfold ret, log, with_cache. simpl. done.
Qed.

(** A stale entry, and the engine accepts the edits and parses the text. *)
Lemma _parse_incremental_ok s doc r i d d' dn :
  LRUMap.peek (uri doc) (_cache s) = Some r →
  entries s !! r = Some i →
  entry_version i ≠ version doc →
  trees s !! entry_tree i = Some d →
  fold_edits ts_edit d (concat (entry_edits i)) = Some d' →
  ts_parse (getText doc) (Some d') = Some dn →
  let t := fresh (dom (trees s)) in
  let e := mkEntry (version doc) t [] in
  _parse ts_parse ts_edit doc s =
  (Some (Some t),
   mkState (LRUMap.remove (uri doc) (_cache s) ++ [(uri doc, r)])
     (<[r := e]> (entries s))
     (<[t := dn]> (<[entry_tree i := d']> (trees s)))
     (trace s ++ map (EvEdit (entry_tree i)) (concat (entry_edits i)) ++
        [EvParse (getText doc) (Some (entry_tree i)) (Some t);
         EvDelete (entry_tree i); EvParseDone doc t (Some e)])
     (_listener s)).
Proof.
  intros Hpeek Hi Hv Hd Hfold Hparse t e. unfold _parse.
  rewrite (bind_ok _ _ _ _ _ (cache_get_eq _ _)).
  rewrite Hpeek, (get_present _ _ _ Hpeek). cbn [snd].
  erewrite bind_ok; last first.
  { erewrite bind_ok; [|unfold read_entry; simpl; by rewrite Hi]. reflexivity. }
  rewrite decide_False by congruence.
  unfold try_catch. cbn zeta.
  erewrite bind_ok; last first.
  { erewrite bind_ok; [reflexivity|]. by eapply parse_incremental_ok. }
  simpl. fold t e.
  assert (<[r := e]> (entries s) !! r = Some e) as Hr by apply lookup_insert_eq.
  erewrite bind_ok; [|unfold read_entry; simpl; by rewrite Hr].
  erewrite bind_ok; last first.
  { unfold fire. simpl. rewrite peek_app, peek_remove_eq. simpl.
    rewrite decide_True by done. simpl. rewrite Hr. reflexivity. }
  erewrite bind_ok; [|unfold read_entry; simpl; by rewrite Hr].
  unfold ret, log. simpl. by rewrite <- !app_assoc.
Qed.

(** A stale entry, and the engine throws on an edit or on the parse. *)
Lemma _parse_incremental_fail s doc r i d :
  LRUMap.peek (uri doc) (_cache s) = Some r →
  entries s !! r = Some i →
  entry_version i ≠ version doc →
  trees s !! entry_tree i = Some d →
  fold_edits ts_edit d (concat (entry_edits i)) ≫=
    (λ d', ts_parse (getText doc) (Some d')) = None →
  ∃ evs h tm,
    _parse ts_parse ts_edit doc s =
      (Some None,
       mkState (LRUMap.remove (uri doc) (_cache s)) h tm
         (trace s ++ evs ++ [EvDelete (entry_tree i)]) (_listener s)) ∧
    (∀ r', r' ≠ r → h !! r' = entries s !! r') ∧
    dom tm = dom (trees s) ∧
    (∀ t', t' ≠ entry_tree i → tm !! t' = trees s !! t') ∧
    (∀ ev, ev ∈ evs → failed_call (entry_tree i) (getText doc) ev).
Proof.
  intros Hpeek Hi Hv Hd Hfail. unfold _parse.
  rewrite (bind_ok _ _ _ _ _ (cache_get_eq _ _)).
  rewrite Hpeek, (get_present _ _ _ Hpeek). cbn [snd].
  erewrite bind_ok; last first.
  { erewrite bind_ok; [|unfold read_entry; simpl; by rewrite Hi]. reflexivity. }
  rewrite decide_False by congruence.
  unfold try_catch. cbn zeta.
  destruct (parse_incremental_fail
              (with_cache (LRUMap.remove (uri doc) (_cache s) ++ [(uri doc, r)]) s)
              r i d (version doc) (getText doc) Hi Hd Hfail)
    as (evs & h & tm & e & Heq & Hr & Htree & Hh & Hdom & Htm & Hevs).
  erewrite bind_throw; [|erewrite bind_throw; [reflexivity | exact Heq]].
  exists evs, h, tm. split; [|done].
  erewrite bind_ok; last first.
  { rewrite cache_delete_eq. simpl. rewrite delete_touched. simpl.
    rewrite cache_dispose_ok; [reflexivity|].
    intros k r' [= -> ->]%list_elem_of_singleton. simpl. by exists e. }
  unfold ret. simpl. unfold entry_trees. simpl. rewrite Hr. simpl.
  by rewrite Htree, <- app_assoc.
Qed.

(** The listener, when the URI has an entry and when it has none. *)
Lemma onDidChangeContent2_present s e r i :
  _listener s = true →
  LRUMap.peek (uri (document e)) (_cache s) = Some r →
  entries s !! r = Some i →
  onDidChangeContent2 positionAt e s =
  (Some tt,
   mkState (LRUMap.remove (uri (document e)) (_cache s) ++ [(uri (document e), r)])
     (<[r := mkEntry (entry_version i) (entry_tree i)
                     (entry_edits i ++ [_asEdits positionAt e])]> (entries s))
     (trees s) (trace s) (_listener s)).
Proof.
  intros Hl Hpeek Hi. unfold onDidChangeContent2, on_change. rewrite Hl.
  rewrite (bind_ok _ _ _ _ _ (cache_get_eq _ _)).
  rewrite Hpeek, (get_present _ _ _ Hpeek). cbn [snd].
  erewrite bind_ok; [|unfold read_entry; simpl; by rewrite Hi].
  unfold write_entry, with_entries, with_cache. simpl. by rewrite Hl.
Qed.

Lemma onDidChangeContent2_absent s e :
  LRUMap.peek (uri (document e)) (_cache s) = None →
  onDidChangeContent2 positionAt e s = (Some tt, s).
Proof.
  intros Hpeek. unfold onDidChangeContent2, on_change.
  destruct (_listener s); [|done].
  rewrite (bind_ok _ _ _ _ _ (cache_get_eq _ _)). rewrite Hpeek.
  unfold LRUMap.get. rewrite Hpeek. unfold ret, with_cache. simpl.
  by rewrite state_eta.
Qed.

(** *** Counting releases *)

Lemma releases_app t tr1 tr2 :
  releases t (tr1 ++ tr2) = (releases t tr1 + releases t tr2)%nat.
Proof. unfold releases. by rewrite filter_app, length_app. Qed.

Lemma releases_cons t ev tr :
  releases t (ev :: tr) =
  ((if is_delete t ev then 1 else 0) + releases t tr)%nat.
Proof.
  unfold releases. rewrite filter_cons.
  destruct (is_delete t ev); by case_decide.
Qed.

Lemma releases_nil t : releases t [] = 0%nat.
Proof. done. Qed.

Lemma releases_none t tr :
  (∀ ev, ev ∈ tr → is_delete t ev = false) → releases t tr = 0%nat.
Proof.
  induction tr as [|ev tr IH]; intros Hno; [done|].
  rewrite releases_cons, (Hno ev) by left. simpl.
  apply IH. intros ev' Hin. apply Hno. by right.
Qed.

Lemma releases_edits t told deltas :
  releases t (map (EvEdit told) deltas) = 0%nat.
Proof.
  apply releases_none. by intros ev (delta & -> & _)%list_elem_of_fmap.
Qed.

Lemma releases_deletes_fresh t (l : list nat) :
  t ∉ l → releases t (map EvDelete l) = 0%nat.
Proof.
  intros Hl. apply releases_none.
  intros ev (t' & -> & Hin)%list_elem_of_fmap. simpl.
  apply bool_decide_eq_false. by intros ->.
Qed.

Lemma releases_deletes_once t (l : list nat) :
  NoDup l → t ∈ l → releases t (map EvDelete l) = 1%nat.
Proof.
  induction l as [|t' l IH]; [by intros _ ?%elem_of_nil|].
  intros [Ht' Hnd]%NoDup_cons Hin. cbn [map]. rewrite releases_cons. simpl.
  apply elem_of_cons in Hin as [->|Hin].
  - rewrite bool_decide_eq_true_2 by done.
    by rewrite releases_deletes_fresh.
  - rewrite bool_decide_eq_false_2 by (by intros ->).
    by rewrite IH.
Qed.

(** *** Reads of released trees *)

Lemma reads_live_app pre evs1 evs2 :
  reads_live pre (evs1 ++ evs2) ↔
  reads_live pre evs1 ∧ reads_live (pre ++ evs1) evs2.
Proof.
  revert pre. induction evs1 as [|ev evs1 IH]; intros pre; simpl.
  - rewrite app_nil_r. tauto.
  - rewrite IH, <- app_assoc. simpl. tauto.
Qed.

Lemma reads_live_spec pre evs :
  reads_live pre evs ↔
  ∀ evs1 ev evs2 t, evs = evs1 ++ ev :: evs2 → reads t ev = true →
    releases t (pre ++ evs1) = 0%nat.
Proof.
  revert pre. induction evs as [|ev evs IH]; intros pre; simpl.
  - split; [|done]. intros _ [|??] ????; done.
  - rewrite IH. split.
    + intros [Hev Hrest] [|ev1 evs1] ev' evs2 t Heq Hr.
      * injection Heq as <- <-. rewrite app_nil_r. by apply Hev.
      * injection Heq as <- Heq.
        specialize (Hrest evs1 ev' evs2 t Heq Hr).
        by rewrite <- app_assoc in Hrest.
    + intros Hall. split.
      * intros t Hr. specialize (Hall [] ev evs t eq_refl Hr).
        by rewrite app_nil_r in Hall.
      * intros evs1 ev' evs2 t -> Hr. rewrite <- app_assoc.
        by apply (Hall (ev :: evs1) ev' evs2 t).
Qed.

Lemma no_read_after_release_live tr :
  no_read_after_release tr ↔ reads_live [] tr.
Proof. rewrite reads_live_spec. done. Qed.

Lemma reads_live_quiet pre evs :
  (∀ ev t, ev ∈ evs → reads t ev = false) → reads_live pre evs.
Proof.
  revert pre. induction evs as [|ev evs IH]; intros pre Hq; simpl; [done|].
  split.
  - intros t Hr. rewrite (Hq ev t) in Hr; [done | left].
  - apply IH. intros ev' t Hin. apply Hq. by right.
Qed.

(** Calls that read only the tree [told], and do not release anything. *)
Lemma reads_live_only told pre evs :
  releases told pre = 0%nat →
  (∀ ev, ev ∈ evs → (∀ t, reads t ev = true → t = told) ∧
                     (∀ t, is_delete t ev = false)) →
  reads_live pre evs.
Proof.
  revert pre. induction evs as [|ev evs IH]; intros pre Hpre Hevs; simpl; [done|].
  destruct (Hevs ev) as [Hr Hd]; [left|]. split.
  - by intros t ->%Hr.
  - apply IH.
    + rewrite releases_app, Hpre, releases_cons, Hd. done.
    + intros ev' Hin. apply Hevs. by right.
Qed.

(** *** The ownership discipline is kept *)

Lemma holds_elem s t :
  holds s t ↔ t ∈ entry_trees (entries s) (_cache s).*2.
Proof.
  unfold holds, entry_trees. rewrite list_elem_of_omap. split.
  - intros (k & r & e & Hin & He & <-). exists r. rewrite He. split; [|done].
    apply list_elem_of_fmap. by exists (k, r).
  - intros (r & ([k r'] & -> & Hin)%list_elem_of_fmap & Hr). simpl in Hr.
    destruct (entries s !! r') as [e|] eqn:He; [|done].
    injection Hr as <-. by exists k, r', e.
Qed.

Lemma holds_dec s t : holds s t ∨ ¬ holds s t.
Proof.
  rewrite holds_elem.
  destruct (decide (t ∈ entry_trees (entries s) (_cache s).*2)); tauto.
Qed.

Lemma is_delete_mentions t ev : is_delete t ev = true → mentions t ev = true.
Proof. by destruct ev. Qed.

Lemma reads_mentions t ev : reads t ev = true → mentions t ev = true.
Proof.
  destruct ev as [? [?|] [?|]| | |]; simpl; try done.
  intros ->. apply orb_true_r.
Qed.

Lemma releases_unalloc s t :
  Inv s → t ∉ dom (trees s) → releases t (trace s) = 0%nat.
Proof.
  intros HI Ht. apply releases_none. intros ev Hin.
  destruct (is_delete t ev) eqn:Hd; [|done].
  exfalso. apply Ht. eapply inv_alloc; [done.. | by apply is_delete_mentions].
Qed.

Lemma Inv_init : Inv (init (TreeData := TreeData)).
Proof.
  split; simpl.
  - apply NoDup_nil_2.
  - by intros ?? ?%elem_of_nil.
  - by intros ?????? ?%elem_of_nil.
  - by intros t (? & ? & ? & ?%elem_of_nil & _).
  - by intros t ?%elem_of_empty.
  - by intros ?? ?%elem_of_nil.
  - by intros [|??] ????.
Qed.

(** One operation: the trace grows by [evs]; a tree that the cache holds
    afterwards was held before or is new, and [evs] does not release it; a
    tree that the cache does not hold afterwards is released by [evs]
    exactly when the cache held it before. *)
Lemma Inv_step s s' evs :
  Inv s →
  trace s' = trace s ++ evs →
  NoDup (_cache s').*1 →
  (∀ k r, (k, r) ∈ _cache s' → is_Some (entries s' !! r)) →
  (∀ k1 r1 e1 k2 r2 e2,
      (k1, r1) ∈ _cache s' → entries s' !! r1 = Some e1 →
      (k2, r2) ∈ _cache s' → entries s' !! r2 = Some e2 →
      entry_tree e1 = entry_tree e2 → k1 = k2) →
  dom (trees s) ⊆ dom (trees s') →
  (∀ t, holds s' t →
      t ∈ dom (trees s') ∧ (holds s t ∨ t ∉ dom (trees s)) ∧
      releases t evs = 0%nat) →
  (∀ t, t ∈ dom (trees s') → ¬ holds s' t →
      t ∈ dom (trees s) ∧
      (holds s t → releases t evs = 1%nat) ∧
      (¬ holds s t → releases t evs = 0%nat)) →
  (∀ ev t, ev ∈ evs → mentions t ev = true → t ∈ dom (trees s')) →
  reads_live (trace s) evs →
  Inv s'.
Proof.
  intros HI Htr Hkeys Hrefs Hinj Hdom Hheld Hgone Halloc Hreads.
  split; try done.
  - intros t Ht. destruct (Hheld t Ht) as (Hin & Hold & Hevs).
    split; [done|]. rewrite Htr, releases_app, Hevs.
    destruct Hold as [Hold|Hnew].
    + by destruct (inv_held s HI t Hold) as [_ ->].
    + by rewrite releases_unalloc.
  - intros t Hin Ht. destruct (Hgone t Hin Ht) as (Hin' & Hwas & Hwasnt).
    rewrite Htr, releases_app. destruct (holds_dec s t) as [Hold|Hold].
    + rewrite (Hwas Hold). by destruct (inv_held s HI t Hold) as [_ ->].
    + rewrite (Hwasnt Hold). by rewrite (inv_gone s HI t Hin' Hold).
  - intros ev t Hin Hm. rewrite Htr in Hin.
    apply elem_of_app in Hin as [Hin|Hin]; [|by eapply Halloc].
    apply Hdom. by eapply inv_alloc.
  - apply no_read_after_release_live. rewrite Htr. apply reads_live_app.
    split; [by apply no_read_after_release_live, inv_reads | done].
Qed.

Lemma Inv_peek s k r :
  Inv s → (k, r) ∈ _cache s ↔ LRUMap.peek k (_cache s) = Some r.
Proof.
  intros HI. split; [apply elem_peek, HI | apply peek_Some_elem].
Qed.

Lemma Inv_ref_inj s k1 k2 r :
  Inv s → (k1, r) ∈ _cache s → (k2, r) ∈ _cache s → k1 = k2.
Proof.
  intros HI H1 H2. destruct (inv_refs s HI _ _ H1) as [e He].
  by eapply (inv_inj s HI k1 r e k2 r e).
Qed.

Lemma Inv_key_inj s k r1 r2 :
  Inv s → (k, r1) ∈ _cache s → (k, r2) ∈ _cache s → r1 = r2.
Proof.
  intros HI H1%(Inv_peek _ _ _ HI) H2%(Inv_peek _ _ _ HI). congruence.
Qed.

(** A tree that the engine has not allocated yet is not in the cache. *)
Lemma Inv_fresh_tree s :
  Inv s → ¬ holds s (fresh (dom (trees s))).
Proof.
  intros HI [Hin _]%(inv_held s HI). by apply is_fresh in Hin.
Qed.

(** Recency changes and pending edits do not affect ownership. *)
Lemma Inv_touch s c' h' :
  Inv s →
  NoDup c'.*1 →
  (∀ k r, (k, r) ∈ c' ↔ (k, r) ∈ _cache s) →
  (∀ k r, (k, r) ∈ _cache s →
      entry_tree <$> h' !! r = entry_tree <$> entries s !! r) →
  Inv (mkState c' h' (trees s) (trace s) (_listener s)).
Proof.
  intros HI Hnd Hc Hh.
  assert (∀ k r e', (k, r) ∈ c' → h' !! r = Some e' →
            ∃ e, entries s !! r = Some e ∧ entry_tree e = entry_tree e') as Hback.
  { intros k r e' Hin%Hc He'. specialize (Hh _ _ Hin). rewrite He' in Hh.
    destruct (entries s !! r) as [e|]; [|done]. injection Hh as Hh. eauto. }
  assert (∀ t, holds (mkState c' h' (trees s) (trace s) (_listener s)) t ↔
               holds s t) as Hholds.
  { intros t. unfold holds. simpl. split.
    - intros (k & r & e' & Hin & He' & <-).
      destruct (Hback _ _ _ Hin He') as (e & He & Htree).
      exists k, r, e. by rewrite <- Hc.
    - intros (k & r & e & Hin & He & <-).
      specialize (Hh _ _ Hin). rewrite He in Hh.
      destruct (h' !! r) as [e'|] eqn:He'; [|done]. injection Hh as Hh.
      exists k, r, e'. by rewrite Hc. }
  apply (Inv_step s _ [] HI); simpl.
  - by rewrite app_nil_r.
  - done.
  - intros k r Hin%Hc. specialize (Hh _ _ Hin).
    destruct (inv_refs s HI _ _ Hin) as [e He]. rewrite He in Hh.
    by destruct (h' !! r).
  - intros k1 r1 e1 k2 r2 e2 Hin1 He1 Hin2 He2 Htree.
    destruct (Hback _ _ _ Hin1 He1) as (e1' & He1' & Ht1).
    destruct (Hback _ _ _ Hin2 He2) as (e2' & He2' & Ht2).
    apply Hc in Hin1, Hin2.
    eapply (inv_inj s HI k1 r1 e1' k2 r2 e2'); try done. congruence.
  - done.
  - intros t Ht%Hholds. split; [by apply (inv_held s HI)|]. by split; [left|].
  - intros t Hin Ht. split; [done|]. split; [|done].
    intros ?%Hholds. done.
  - by intros ev t ?%elem_of_nil.
  - done.
Qed.

(** An incremental parse keeps the discipline: the old tree is released
    once and the new tree takes its place. *)
Lemma Inv_incremental_ok s u r i doc (e : Entry) (tm : gmap nat TreeData) evs :
  Inv s →
  LRUMap.peek u (_cache s) = Some r →
  entries s !! r = Some i →
  let told := entry_tree i in
  let t := fresh (dom (trees s)) in
  entry_tree e = t →
  dom tm = {[t]} ∪ dom (trees s) →
  (∀ ev, ev ∈ evs → failed_call told (getText doc) ev ∨
                     ev = EvParse (getText doc) (Some told) (Some t)) →
  Inv (mkState (LRUMap.remove u (_cache s) ++ [(u, r)]) (<[r := e]> (entries s)) tm
         (trace s ++ evs ++ [EvDelete told; EvParseDone doc t (Some e)])
         (_listener s)).
Proof.
  intros HI Hpeek Hi told t He Hdom Hevs.
  pose proof (peek_Some_elem _ _ _ Hpeek) as Hur.
  assert (holds s told) as Hold by (by exists u, r, i).
  destruct (inv_held s HI _ Hold) as [Hold_dom Hold_rel].
  assert (t ∉ dom (trees s)) as Hfresh by apply is_fresh.
  assert (told ≠ t) as Hne by (by intros Heq; rewrite Heq in Hold_dom).
  assert (∀ k r', (k, r') ∈ LRUMap.remove u (_cache s) ++ [(u, r)] ↔
                  (k, r') ∈ _cache s) as Hc.
  { intros. apply elem_touch; [apply HI | done]. }
  assert (∀ t', holds (mkState (LRUMap.remove u (_cache s) ++ [(u, r)])
                         (<[r := e]> (entries s)) tm
                         (trace s ++ evs ++ [EvDelete told; EvParseDone doc t (Some e)])
                         (_listener s)) t' ↔
                t' = t ∨ (holds s t' ∧ t' ≠ told)) as Hholds.
  { intros t'. unfold holds. simpl. split.
    - intros (k & r' & e' & Hin%Hc & He' & <-).
      destruct (decide (r' = r)) as [->|Hr].
      + rewrite lookup_insert_eq in He'. injection He' as <-. by left.
      + rewrite lookup_insert_ne in He' by done. right. split; [by exists k, r', e'|].
        intros Heq. apply Hr.
        assert (k = u) as -> by (by eapply (inv_inj s HI k r' e' u r i)).
        by eapply Inv_key_inj.
    - intros [->|[(k & r' & e' & Hin & He' & <-) Hnot]].
      + exists u, r, e. rewrite Hc, lookup_insert_eq. done.
      + exists k, r', e'. rewrite Hc, lookup_insert_ne; [done|].
        intros <-. rewrite Hi in He'. by injection He' as <-. }
  assert (∀ t', releases t' (evs ++ [EvDelete told; EvParseDone doc t (Some e)]) =
                if decide (t' = told) then 1%nat else 0%nat) as Hrel.
  { intros t'. rewrite releases_app, releases_none; last first.
    { intros ev [[(delta & ->)| ->]| ->]%Hevs; done. }
    rewrite !releases_cons, releases_nil. simpl.
    case_decide; [by rewrite bool_decide_eq_true_2 | by rewrite bool_decide_eq_false_2]. }
  eapply (Inv_step s _ _ HI); simpl.
  - reflexivity.
  - apply NoDup_touch, HI.
  - intros k r' Hin%Hc. apply lookup_insert_is_Some.
    destruct (decide (r = r')); [by left | right]. split; [done|].
    by eapply inv_refs.
  - intros k1 r1 e1 k2 r2 e2 Hin1%Hc He1 Hin2%Hc He2 Htree.
    destruct (decide (r1 = r)) as [->|Hr1], (decide (r2 = r)) as [->|Hr2].
    + by eapply Inv_ref_inj.
    + rewrite lookup_insert_eq in He1. injection He1 as <-.
      rewrite lookup_insert_ne in He2 by done.
      exfalso. apply (Inv_fresh_tree s HI). exists k2, r2, e2.
      split; [done|]. split; [done|]. fold t. congruence.
    + rewrite lookup_insert_eq in He2. injection He2 as <-.
      rewrite lookup_insert_ne in He1 by done.
      exfalso. apply (Inv_fresh_tree s HI). exists k1, r1, e1.
      split; [done|]. split; [done|]. fold t. congruence.
    + rewrite lookup_insert_ne in He1, He2 by done.
      by eapply (inv_inj s HI k1 r1 e1 k2 r2 e2).
  - rewrite Hdom. set_solver.
  - intros t' [->|[Ht' Hnot]]%Hholds; rewrite Hrel, Hdom.
    + split; [set_solver|]. split; [by right|]. by rewrite decide_False.
    + split; [|split; [by left | by rewrite decide_False]].
      apply elem_of_union_r. by apply (inv_held s HI).
  - intros t' Hin Ht'. rewrite Hrel. rewrite Hdom in Hin.
    apply elem_of_union in Hin as [->%elem_of_singleton|Hin].
    { exfalso. apply Ht', Hholds. by left. }
    split; [done|]. split.
    + intros Hwas. case_decide; [done|]. exfalso. apply Ht', Hholds. by right.
    + intros Hwasnt. case_decide; [|done]. by subst.
  - intros ev t' Hin Hm. rewrite Hdom.
    assert (t' = told ∨ t' = t) as [->| ->]; [|set_solver..].
    apply elem_of_app in Hin as [Hin|Hin].
    + destruct (Hevs ev Hin) as [[(delta & ->)| ->]| ->]; simpl in Hm.
      * left. by apply bool_decide_eq_true in Hm.
      * left. by apply bool_decide_eq_true in Hm.
      * apply orb_true_iff in Hm as [Hm|Hm]; apply bool_decide_eq_true in Hm; auto.
    + apply elem_of_cons in Hin as [->|Hin]; simpl in Hm.
      * left. by apply bool_decide_eq_true in Hm.
      * apply list_elem_of_singleton in Hin as ->. simpl in Hm.
        right. by apply bool_decide_eq_true in Hm.
  - apply reads_live_app. split.
    + apply (reads_live_only told); [done|].
      intros ev [[(delta & ->)| ->]| ->]%Hevs; simpl;
        (split; [by intros t' ->%bool_decide_eq_true | done]).
    + simpl. split; [done|]. split; [|done].
      intros t' Heq%bool_decide_eq_true. rewrite <- Heq.
      rewrite <- app_assoc, releases_app, (releases_unalloc s t HI Hfresh).
      rewrite releases_app, releases_none; last first.
      { intros ev [[(delta & ->)| ->]| ->]%Hevs; done. }
      rewrite releases_cons. simpl. by rewrite bool_decide_eq_false_2.
Qed.

(** A failed incremental parse keeps the discipline: the entry leaves the
    cache and its tree is released by the [dispose] hook. *)
Lemma Inv_incremental_fail s u r i txt (h : gmap nat Entry)
    (tm : gmap nat TreeData) evs :
  Inv s →
  LRUMap.peek u (_cache s) = Some r →
  entries s !! r = Some i →
  let told := entry_tree i in
  (∀ r', r' ≠ r → h !! r' = entries s !! r') →
  dom tm = dom (trees s) →
  (∀ ev, ev ∈ evs → failed_call told txt ev) →
  Inv (mkState (LRUMap.remove u (_cache s)) h tm
         (trace s ++ evs ++ [EvDelete told]) (_listener s)).
Proof.
  intros HI Hpeek Hi told Hh Hdom Hevs.
  pose proof (peek_Some_elem _ _ _ Hpeek) as Hur.
  assert (holds s told) as Hold by (by exists u, r, i).
  destruct (inv_held s HI _ Hold) as [Hold_dom Hold_rel].
  assert (∀ k r', (k, r') ∈ LRUMap.remove u (_cache s) →
            (k, r') ∈ _cache s ∧ k ≠ u ∧ r' ≠ r) as Hc.
  { intros k r' [Hin Hk]%elem_remove. do 2 (split; [done|]).
    intros ->. apply Hk. by eapply Inv_ref_inj. }
  assert (∀ t', holds (mkState (LRUMap.remove u (_cache s)) h tm
                         (trace s ++ evs ++ [EvDelete told]) (_listener s)) t' ↔
                holds s t' ∧ t' ≠ told) as Hholds.
  { intros t'. unfold holds. simpl. split.
    - intros (k & r' & e' & (Hin & Hk & Hr)%Hc & He' & <-).
      rewrite Hh in He' by done. split; [by exists k, r', e'|].
      intros Heq. apply Hk. by eapply (inv_inj s HI k r' e' u r i).
    - intros [(k & r' & e' & Hin & He' & <-) Hnot].
      assert (k ≠ u) as Hk.
      { intros ->. rewrite (Inv_key_inj s u r' r HI Hin Hur) in He'.
        rewrite Hi in He'. by injection He' as <-. }
      assert (r' ≠ r) as Hr.
      { intros ->. apply Hk. by eapply Inv_ref_inj. }
      exists k, r', e'. rewrite elem_remove, Hh by done. done. }
  assert (∀ t', releases t' (evs ++ [EvDelete told]) =
                if decide (t' = told) then 1%nat else 0%nat) as Hrel.
  { intros t'. rewrite releases_app, releases_none; last first.
    { intros ev [(delta & ->)| ->]%Hevs; done. }
    rewrite !releases_cons, releases_nil. simpl.
    case_decide; [by rewrite bool_decide_eq_true_2 | by rewrite bool_decide_eq_false_2]. }
  eapply (Inv_step s _ _ HI); simpl.
  - reflexivity.
  - apply NoDup_remove, HI.
  - intros k r' (Hin & Hk & Hr)%Hc. rewrite Hh by done. by eapply inv_refs.
  - intros k1 r1 e1 k2 r2 e2 (Hin1 & _ & Hr1)%Hc He1 (Hin2 & _ & Hr2)%Hc He2 Htree.
    rewrite Hh in He1, He2 by done.
    by eapply (inv_inj s HI k1 r1 e1 k2 r2 e2).
  - by rewrite Hdom.
  - intros t' [Ht' Hnot]%Hholds. rewrite Hrel, Hdom.
    split; [by apply (inv_held s HI)|]. split; [by left | by rewrite decide_False].
  - intros t' Hin Ht'. rewrite Hrel. rewrite Hdom in Hin.
    split; [done|]. split.
    + intros Hwas. case_decide; [done|]. exfalso. by apply Ht', Hholds.
    + intros Hwasnt. case_decide; [|done]. by subst.
  - intros ev t' Hin Hm. rewrite Hdom.
    assert (t' = told) as ->; [|done].
    apply elem_of_app in Hin as [Hin|Hin].
    + destruct (Hevs ev Hin) as [(delta & ->)| ->]; simpl in Hm;
        by apply bool_decide_eq_true in Hm.
    + apply list_elem_of_singleton in Hin as ->. simpl in Hm.
      by apply bool_decide_eq_true in Hm.
  - apply reads_live_app. split; [|done].
    apply (reads_live_only told); [done|].
    intros ev [(delta & ->)| ->]%Hevs; simpl;
      (split; [by intros t' ->%bool_decide_eq_true | done]).
Qed.

(** A call of the engine that neither reads, creates nor releases a tree. *)
Lemma Inv_log_quiet s ev :
  Inv s → (∀ t, mentions t ev = false) → Inv (log ev s).
Proof.
  intros HI Hq. apply (Inv_step s _ [ev] HI); simpl; try done;
    try apply HI.
  - intros t Ht. split; [by apply (inv_held s HI)|]. split; [by left|].
    apply releases_none. intros ev' ->%list_elem_of_singleton.
    destruct (is_delete t ev) eqn:Hd; [|done].
    apply is_delete_mentions in Hd. by rewrite Hq in Hd.
  - intros t Hin Ht. split; [done|].
    assert (releases t [ev] = 0%nat) as ->; [|done].
    apply releases_none. intros ev' ->%list_elem_of_singleton.
    destruct (is_delete t ev) eqn:Hd; [|done].
    apply is_delete_mentions in Hd. by rewrite Hq in Hd.
  - intros ev' t ->%list_elem_of_singleton Hm. by rewrite Hq in Hm.
  - split; [|done]. intros t Hr%reads_mentions. by rewrite Hq in Hr.
Qed.

Lemma elem_entry_trees (h : gmap nat Entry) (c : list (string * nat)) t :
  t ∈ entry_trees h c.*2 ↔
  ∃ k r e, (k, r) ∈ c ∧ h !! r = Some e ∧ entry_tree e = t.
Proof.
  unfold entry_trees. rewrite list_elem_of_omap. split.
  - intros (r & ([k r'] & -> & Hin)%list_elem_of_fmap & Hr). simpl in Hr.
    destruct (h !! r') as [e|] eqn:He; [|done].
    injection Hr as <-. by exists k, r', e.
  - intros (k & r & e & Hin & He & <-). exists r. rewrite He. split; [|done].
    apply list_elem_of_fmap. by exists (k, r).
Qed.

(** The trees behind distinct keys are distinct. *)
Lemma NoDup_entry_trees (h : gmap nat Entry) (c : list (string * nat)) :
  NoDup c.*1 →
  (∀ k1 r1 e1 k2 r2 e2,
      (k1, r1) ∈ c → h !! r1 = Some e1 → (k2, r2) ∈ c → h !! r2 = Some e2 →
      entry_tree e1 = entry_tree e2 → k1 = k2) →
  NoDup (entry_trees h c.*2).
Proof.
  induction c as [|[k r] c IH]; intros Hnd Hinj; [apply NoDup_nil_2|].
  apply NoDup_cons in Hnd as [Hk Hnd].
  assert (NoDup (entry_trees h c.*2)) as Hrest.
  { apply IH; [done|]. intros k1 r1 e1 k2 r2 e2 H1 He1 H2 He2.
    apply (Hinj k1 r1 e1 k2 r2 e2); by try right. }
  unfold entry_trees in *. cbn [fmap list_fmap snd omap list_omap].
  destruct (h !! r) as [e|] eqn:He; simpl; [|done].
  apply NoDup_cons. split; [|done].
  intros (k' & r' & e' & Hin & He' & Htree)%elem_entry_trees.
  apply Hk. apply list_elem_of_fmap. exists (k', r'). split; [|done]. simpl.
  eapply (Hinj k r e k' r' e'); try done; [left | by right].
Qed.

Lemma Inv_NoDup_trees s :
  Inv s → NoDup (entry_trees (entries s) (_cache s).*2).
Proof. intros HI. apply NoDup_entry_trees; apply HI. Qed.

(** A fresh parse keeps the discipline: the new tree enters the cache and the
    trees of the evicted entries are released by the [dispose] hook. *)
Lemma Inv_fresh_ok s u doc txt (e : Entry) d evicted rest :
  Inv s →
  _cache s = evicted ++ rest →
  LRUMap.peek u (_cache s) = None →
  let t := fresh (dom (trees s)) in
  let r := fresh (dom (entries s)) in
  let h := <[r := e]> (entries s) in
  entry_tree e = t →
  Inv (mkState (rest ++ [(u, r)]) h (<[t := d]> (trees s))
         (trace s ++ [EvParse txt None (Some t)] ++
            map EvDelete (entry_trees h evicted.*2) ++ [EvParseDone doc t (Some e)])
         (_listener s)).
Proof.
  intros HI Hcache Hpeek t r h He.
  pose proof (inv_keys s HI) as Hkeys.
  rewrite Hcache, fmap_app in Hkeys.
  apply NoDup_app in Hkeys as (Hkeys_ev & Hdisj & Hkeys_rest).
  apply peek_None in Hpeek. rewrite Hcache, fmap_app in Hpeek.
  apply not_elem_of_app in Hpeek as [Hu_ev Hu_rest].
  assert (t ∉ dom (trees s)) as Hfresh by apply is_fresh.
  assert (r ∉ dom (entries s)) as Hfresh_r by apply is_fresh.
  assert (∀ k r', (k, r') ∈ _cache s → r' ≠ r) as Hr.
  { intros k r' Hin ->. destruct (inv_refs s HI _ _ Hin) as [e' He'].
    by apply elem_of_dom_2 in He'. }
  assert (∀ k r', (k, r') ∈ _cache s → h !! r' = entries s !! r') as Hh.
  { intros k r' Hin. unfold h. rewrite lookup_insert_ne; [done|].
    intros <-. by eapply Hr. }
  set (dropped := entry_trees h evicted.*2).
  assert (∀ t', t' ∈ dropped ↔
            ∃ k r' e', (k, r') ∈ evicted ∧ entries s !! r' = Some e' ∧
                       entry_tree e' = t') as Hdropped.
  { intros t'. unfold dropped. rewrite elem_entry_trees.
    split; intros (k & r' & e' & Hin & He' & Ht'); exists k, r', e';
      (split; [done|]); (split; [|done]).
    - rewrite <- (Hh k r'); [done|]. rewrite Hcache. apply elem_of_app. by left.
    - rewrite (Hh k r'); [done|]. rewrite Hcache. apply elem_of_app. by left. }
  assert (NoDup dropped) as Hnd_dropped.
  { apply NoDup_entry_trees; [done|].
    intros k1 r1 e1 k2 r2 e2 H1 He1 H2 He2.
    assert ((k1, r1) ∈ _cache s) as H1' by (rewrite Hcache, elem_of_app; by left).
    assert ((k2, r2) ∈ _cache s) as H2' by (rewrite Hcache, elem_of_app; by left).
    rewrite (Hh _ _ H1') in He1. rewrite (Hh _ _ H2') in He2.
    by apply (inv_inj s HI k1 r1 e1 k2 r2 e2). }
  assert (∀ t', t' ∈ dropped → holds s t') as Hdropped_held.
  { intros t' (k & r' & e' & Hin & He' & Ht')%Hdropped. exists k, r', e'.
    rewrite Hcache, elem_of_app. by repeat split; [left|..]. }
  assert (∀ t', holds (mkState (rest ++ [(u, r)]) h (<[t := d]> (trees s))
                         (trace s ++ [EvParse txt None (Some t)] ++
                            map EvDelete dropped ++ [EvParseDone doc t (Some e)])
                         (_listener s)) t' ↔
                t' = t ∨ (holds s t' ∧ t' ∉ dropped)) as Hholds.
  { intros t'. unfold holds. simpl. split.
    - intros (k & r' & e' & [Hin|Hin]%elem_of_app & He' & <-).
      + right. assert ((k, r') ∈ _cache s) as Hin'
          by (rewrite Hcache, elem_of_app; by right).
        rewrite (Hh _ _ Hin') in He'. split; [by exists k, r', e'|].
        intros (k0 & r0 & e0 & Hin0 & He0 & Htree)%Hdropped.
        assert ((k0, r0) ∈ _cache s) as Hin0'
          by (rewrite Hcache, elem_of_app; by left).
        assert (k0 = k) as -> by (by eapply (inv_inj s HI k0 r0 e0 k r' e')).
        apply (Hdisj k); apply list_elem_of_fmap; by eexists (k, _).
      + apply list_elem_of_singleton in Hin as [= -> ->]. left.
        unfold h in He'. rewrite lookup_insert_eq in He'. by injection He' as <-.
    - intros [->|[(k & r' & e' & Hin & He' & <-) Hnot]].
      + exists u, r, e. rewrite elem_of_app, list_elem_of_singleton.
        unfold h. rewrite lookup_insert_eq. by repeat split; [right|..].
      + exists k, r', e'. rewrite (Hh _ _ Hin). split; [|done].
        rewrite Hcache in Hin. apply elem_of_app in Hin as [Hin|Hin].
        * exfalso. apply Hnot, Hdropped. by exists k, r', e'.
        * apply elem_of_app. by left. }
  assert (∀ t', releases t' ([EvParse txt None (Some t)] ++
                  map EvDelete dropped ++ [EvParseDone doc t (Some e)]) =
                releases t' (map EvDelete dropped)) as Hrel.
  { intros t'. rewrite !releases_app, !releases_cons, releases_nil. simpl. lia. }
  eapply (Inv_step s _ _ HI); simpl.
  - reflexivity.
  - rewrite fmap_app. apply NoDup_app. split; [done|].
    split; [|apply NoDup_singleton].
    by intros k Hin ->%list_elem_of_singleton.
  - intros k r' [Hin|Hin]%elem_of_app.
    + rewrite (Hh k r') by (rewrite Hcache, elem_of_app; by right).
      eapply inv_refs; [done|]. rewrite Hcache, elem_of_app. by right.
    + apply list_elem_of_singleton in Hin as [= -> ->].
      unfold h. by rewrite lookup_insert_eq.
  - intros k1 r1 e1 k2 r2 e2 Hin1 He1 Hin2 He2 Htree.
    assert (∀ k r' e', (k, r') ∈ rest ++ [(u, r)] → h !! r' = Some e' →
              (k = u ∧ entry_tree e' = t) ∨
              (k ≠ u ∧ (k, r') ∈ _cache s ∧ entries s !! r' = Some e')) as Hcase.
    { intros k r' e' [Hin|Hin]%elem_of_app He'.
      - right. assert ((k, r') ∈ _cache s) as Hin'
          by (rewrite Hcache, elem_of_app; by right).
        rewrite (Hh _ _ Hin') in He'. split; [|done].
        intros ->. apply Hu_rest. apply list_elem_of_fmap. by exists (u, r').
      - apply list_elem_of_singleton in Hin as [= -> ->]. left.
        unfold h in He'. rewrite lookup_insert_eq in He'. by injection He' as <-. }
    destruct (Hcase _ _ _ Hin1 He1) as [[-> Ht1]|(Hk1 & Hc1 & He1')],
             (Hcase _ _ _ Hin2 He2) as [[-> Ht2]|(Hk2 & Hc2 & He2')]; [done|..].
    + exfalso. apply (Inv_fresh_tree s HI). exists k2, r2, e2.
      split; [done|]. split; [done|]. fold t. congruence.
    + exfalso. apply (Inv_fresh_tree s HI). exists k1, r1, e1.
      split; [done|]. split; [done|]. fold t. congruence.
    + by eapply (inv_inj s HI k1 r1 e1 k2 r2 e2).
  - rewrite dom_insert_L. set_solver.
  - intros t' Ht'. fold dropped in Ht' |- *. rewrite Hrel, dom_insert_L.
    apply Hholds in Ht' as [->|[Ht' Hnot]].
    + split; [set_solver|]. split; [by right|].
      apply releases_deletes_fresh. intros Hin%Hdropped_held.
      by apply (Inv_fresh_tree s HI).
    + split; [|split; [by left | by apply releases_deletes_fresh]].
      apply elem_of_union_r. by apply (inv_held s HI).
  - intros t' Hin Ht'. fold dropped in Ht' |- *. rewrite Hrel.
    rewrite dom_insert_L in Hin.
    apply elem_of_union in Hin as [->%elem_of_singleton|Hin].
    { exfalso. apply Ht', Hholds. by left. }
    split; [done|]. split.
    + intros Hwas. apply releases_deletes_once; [done|].
      destruct (decide (t' ∈ dropped)); [done|].
      exfalso. apply Ht', Hholds. by right.
    + intros Hwasnt. apply releases_deletes_fresh. by intros ?%Hdropped_held.
  - intros ev t' Hin Hm. fold dropped in Hin. rewrite dom_insert_L.
    apply elem_of_cons in Hin as [->|Hin]; simpl in Hm.
    { rewrite orb_false_r in Hm. apply bool_decide_eq_true in Hm as <-. set_solver. }
    apply elem_of_app in Hin as [Hin|Hin].
    + apply list_elem_of_fmap in Hin as (t0 & -> & Hin). simpl in Hm.
      apply bool_decide_eq_true in Hm as ->.
      apply elem_of_union_r. by apply (inv_held s HI), Hdropped_held.
    + apply list_elem_of_singleton in Hin as ->. simpl in Hm.
      apply bool_decide_eq_true in Hm as <-. set_solver.
  - fold dropped. split; [done|]. apply reads_live_app. split.
    + apply reads_live_quiet. by intros ev t' (t0 & -> & _)%list_elem_of_fmap.
    + simpl. split; [|done]. intros t' Heq%bool_decide_eq_true. rewrite <- Heq.
      rewrite !releases_app, (releases_unalloc s t HI Hfresh).
      rewrite releases_cons, releases_nil. simpl.
      apply releases_deletes_fresh. intros Hin%Hdropped_held.
      by apply (Inv_fresh_tree s HI).
Qed.

(** *** Every operation keeps the discipline *)

Lemma fired_after_update_app evs1 evs2 :
  fired_after_update evs1 → fired_after_update evs2 →
  fired_after_update (evs1 ++ evs2).
Proof.
  intros H1 H2 doc t seen [Hin|Hin]%elem_of_app; [by apply H1 | by apply H2].
Qed.

Lemma fired_after_update_quiet evs :
  (∀ ev, ev ∈ evs → is_parse_done ev = false) → fired_after_update evs.
Proof. intros Hq doc t seen Hin. by apply Hq in Hin. Qed.

Lemma failed_call_quiet told txt ev :
  failed_call told txt ev → is_parse_done ev = false.
Proof. by intros [(delta & ->)| ->]. Qed.

(** A request for a tree keeps the discipline, and the events it adds to the
    trace fire after the cache is up to date. *)
Lemma _parse_step s doc :
  Inv s →
  Inv (_parse ts_parse ts_edit doc s).2 ∧
  ∃ evs, trace (_parse ts_parse ts_edit doc s).2 = trace s ++ evs ∧
         fired_after_update evs.
Proof.
  intros HI.
  destruct (LRUMap.peek (uri doc) (_cache s)) as [r|] eqn:Hpeek.
  - pose proof (peek_Some_elem _ _ _ Hpeek) as Hin.
    destruct (inv_refs s HI _ _ Hin) as [i Hi].
    destruct (decide (entry_version i = version doc)) as [Hv|Hv].
    { rewrite (_parse_hit s doc r i Hpeek Hi Hv). simpl. split.
      - apply (Inv_touch s _ (entries s) HI); [apply NoDup_touch, HI| |done].
        intros. apply elem_touch; [apply HI | done].
      - exists []. split; [by rewrite app_nil_r|]. by intros ??? ?%elem_of_nil. }
    assert (holds s (entry_tree i)) as Hold by (by exists (uri doc), r, i).
    destruct (inv_held s HI _ Hold) as [[d Hd]%elem_of_dom _].
    destruct (fold_edits ts_edit d (concat (entry_edits i))) as [d'|] eqn:Hfold;
      [destruct (ts_parse (getText doc) (Some d')) as [dn|] eqn:Hparse|].
    + rewrite (_parse_incremental_ok s doc r i d d' dn Hpeek Hi Hv Hd Hfold Hparse).
      simpl. split.
      * rewrite (cons_middle (EvParse _ _ _)), (app_assoc (map _ _)).
        apply Inv_incremental_ok; try done.
        -- rewrite !dom_insert_L.
           apply elem_of_dom_2 in Hd. set_solver.
        -- intros ev [(delta & -> & _)%list_elem_of_fmap|
                      ->%list_elem_of_singleton]%elem_of_app.
           ++ left. left. by exists delta.
           ++ by right.
      * eexists. split; [reflexivity|].
        apply fired_after_update_app.
        { apply fired_after_update_quiet.
          by intros ev (delta & -> & _)%list_elem_of_fmap. }
        intros doc' t seen Hev.
        repeat (apply elem_of_cons in Hev as [Hev|Hev]; [try done|]).
        -- injection Hev as -> -> ->. by eexists.
        -- by apply elem_of_nil in Hev.
    + destruct (_parse_incremental_fail s doc r i d Hpeek Hi Hv Hd)
        as (evs & h & tm & -> & Hh & Hdom & _ & Hevs).
      { by rewrite Hfold. }
      simpl. split; [by eapply Inv_incremental_fail|].
      eexists. split; [reflexivity|].
      apply fired_after_update_quiet.
      intros ev [Hev|Hev]%elem_of_app.
      * eapply failed_call_quiet. by apply Hevs.
      * by apply list_elem_of_singleton in Hev as ->.
    + destruct (_parse_incremental_fail s doc r i d Hpeek Hi Hv Hd)
        as (evs & h & tm & -> & Hh & Hdom & _ & Hevs).
      { by rewrite Hfold. }
      simpl. split; [by eapply Inv_incremental_fail|].
      eexists. split; [reflexivity|].
      apply fired_after_update_quiet.
      intros ev [Hev|Hev]%elem_of_app.
      * eapply failed_call_quiet. by apply Hevs.
      * by apply list_elem_of_singleton in Hev as ->.
  - destruct (ts_parse (getText doc) None) as [d|] eqn:Hparse.
    + rewrite (_parse_fresh_ok s doc d Hpeek Hparse (inv_refs s HI)). simpl.
      destruct (set_absent size (uri doc) (fresh (dom (entries s))) _ Hpeek)
        as (evicted & rest & Hcache & _ & ->).
      simpl. split; [by apply Inv_fresh_ok|].
      eexists. split; [reflexivity|].
      intros doc' t seen Hev.
      apply elem_of_cons in Hev as [Hev|Hev]; [done|].
      apply elem_of_app in Hev as [Hev|Hev].
      * by apply list_elem_of_fmap in Hev as (t0 & ? & _).
      * apply list_elem_of_singleton in Hev. injection Hev as -> -> ->.
        by eexists.
    + rewrite (_parse_fresh_fail s doc Hpeek Hparse). simpl. split.
      * by apply Inv_log_quiet.
      * eexists. split; [reflexivity|].
        apply fired_after_update_quiet. by intros ev ->%list_elem_of_singleton.
Qed.

(** A request never throws to its caller, and the tree it returns is a tree
    of the cache. *)
Lemma _parse_result s doc :
  Inv s →
  ∃ o, (_parse ts_parse ts_edit doc s).1 = Some o ∧
       ∀ t, o = Some t → holds (_parse ts_parse ts_edit doc s).2 t.
Proof.
  intros HI.
  destruct (LRUMap.peek (uri doc) (_cache s)) as [r|] eqn:Hpeek.
  - pose proof (peek_Some_elem _ _ _ Hpeek) as Hin.
    destruct (inv_refs s HI _ _ Hin) as [i Hi].
    destruct (decide (entry_version i = version doc)) as [Hv|Hv].
    { rewrite (_parse_hit s doc r i Hpeek Hi Hv). simpl.
      eexists. split; [done|]. intros t [= <-]. exists (uri doc), r, i. simpl.
      split; [|done]. apply elem_of_app. right. left. }
    assert (holds s (entry_tree i)) as Hold by (by exists (uri doc), r, i).
    destruct (inv_held s HI _ Hold) as [[d Hd]%elem_of_dom _].
    destruct (fold_edits ts_edit d (concat (entry_edits i)) ≫=
                λ d', ts_parse (getText doc) (Some d')) as [dn|] eqn:Hout.
    + apply bind_Some in Hout as (d' & Hfold & Hparse).
      rewrite (_parse_incremental_ok s doc r i d d' dn Hpeek Hi Hv Hd Hfold Hparse).
      simpl. eexists. split; [done|]. intros t [= <-].
      exists (uri doc), r, (mkEntry (version doc) (fresh (dom (trees s))) []).
      simpl. rewrite lookup_insert_eq. split; [|done].
      apply elem_of_app. right. left.
    + destruct (_parse_incremental_fail s doc r i d Hpeek Hi Hv Hd Hout)
        as (evs & h & tm & -> & _).
      simpl. by eexists.
  - destruct (ts_parse (getText doc) None) as [d|] eqn:Hparse.
    + rewrite (_parse_fresh_ok s doc d Hpeek Hparse (inv_refs s HI)). simpl.
      eexists. split; [done|]. intros t [= <-].
      exists (uri doc), (fresh (dom (entries s))),
        (mkEntry (version doc) (fresh (dom (trees s))) []).
      simpl. rewrite lookup_insert_eq. split; [|done].
      apply peek_Some_elem, peek_set_eq. unfold size. lia.
    + rewrite (_parse_fresh_fail s doc Hpeek Hparse). simpl. by eexists.
Qed.

(** A change notification keeps the discipline and calls nothing. *)
Lemma change_step s e :
  Inv s →
  Inv (onDidChangeContent2 positionAt e s).2 ∧
  trace (onDidChangeContent2 positionAt e s).2 = trace s.
Proof.
  intros HI. destruct (_listener s) eqn:Hl; [|unfold onDidChangeContent2; by rewrite Hl].
  destruct (LRUMap.peek (uri (document e)) (_cache s)) as [r|] eqn:Hpeek.
  - pose proof (peek_Some_elem _ _ _ Hpeek) as Hin.
    destruct (inv_refs s HI _ _ Hin) as [i Hi].
    rewrite (onDidChangeContent2_present s e r i Hl Hpeek Hi). simpl.
    split; [|done]. apply (Inv_touch s _ _ HI); [apply NoDup_touch, HI| |].
    + intros. apply elem_touch; [apply HI | done].
    + intros k r' Hin'. destruct (decide (r' = r)) as [->|Hr].
      * by rewrite lookup_insert_eq, Hi.
      * by rewrite lookup_insert_ne.
  - by rewrite (onDidChangeContent2_absent s e Hpeek).
Qed.

Lemma step_sound s o :
  Inv s →
  Inv (step ts_parse ts_edit positionAt s o) ∧
  ∃ evs, trace (step ts_parse ts_edit positionAt s o) = trace s ++ evs ∧
         fired_after_update evs.
Proof.
  intros HI. destruct o as [doc|e]; simpl.
  - by apply _parse_step.
  - destruct (change_step s e HI) as [HI' Htr]. split; [done|].
    exists []. rewrite app_nil_r. split; [done|]. by intros ??? ?%elem_of_nil.
Qed.

Lemma steps_sound ops : ∀ s,
  Inv s → fired_after_update (trace s) →
  Inv (steps ts_parse ts_edit positionAt ops s) ∧
  fired_after_update (trace (steps ts_parse ts_edit positionAt ops s)).
Proof.
  induction ops as [|o ops IH]; intros s HI Hfired; [done|].
  destruct (step_sound s o HI) as (HI' & evs & Htr & Hevs).
  apply IH; [done|]. rewrite Htr. by apply fired_after_update_app.
Qed.

(** Every state that the server can reach obeys the discipline. *)
Lemma Inv_reachable ops :
  Inv (steps ts_parse ts_edit positionAt ops init).
Proof.
  apply steps_sound; [apply Inv_init|]. by intros ??? ?%elem_of_nil.
Qed.

(** [dispose] releases the tree of every entry of the cache. *)
Lemma dispose_eq s :
  (∀ k r, (k, r) ∈ _cache s → is_Some (entries s !! r)) →
  dispose s =
  (Some tt, mkState (_cache s) (entries s) (trees s)
              (trace s ++ map EvDelete (entry_trees (entries s) (_cache s).*2))
              false).
Proof.
  intros Hrefs. unfold dispose.
  erewrite bind_ok; [|reflexivity].
  erewrite bind_ok; last first.
  { apply forEach_delete_ok. unfold LRUMap.values.
    intros r ([k r'] & -> & Hin)%list_elem_of_fmap. by eapply Hrefs. }
  done.
Qed.

(** *** The claims about [Trees] *)

Lemma entry_of_Some s u i :
  entry_of s u = Some i ↔
  ∃ r, LRUMap.peek u (_cache s) = Some r ∧ entries s !! r = Some i.
Proof. unfold entry_of. by rewrite bind_Some. Qed.

Lemma entry_of_get s k u :
  entry_of (with_cache (LRUMap.get k (_cache s)).2 s) u = entry_of s u.
Proof. unfold entry_of. simpl. by rewrite peek_get. Qed.

(** C4: when the cache entry of the document's URI has the document's
    version, [getParseTree] returns the tree reference held by that entry and
    does no parse work: the engine is not called and no tree changes. *)
Theorem getParseTree_cache_hit s doc i :
  entry_of s (uri doc) = Some i →
  entry_version i = version doc →
  (getParseTree ts_parse ts_edit doc s).1 = Some (Some (entry_tree i)) ∧
  trace (getParseTree ts_parse ts_edit doc s).2 = trace s ∧
  trees (getParseTree ts_parse ts_edit doc s).2 = trees s.
Proof.
  intros (r & Hpeek & Hi)%entry_of_Some Hv. unfold getParseTree.
  by rewrite (_parse_hit s doc r i Hpeek Hi Hv).
Qed.

(** C9: on a cache hit [getParseTree] fires no parse-completed event (the
    trace does not grow at all) and leaves the tree, the version and the
    pending edits of the entry as they were; the state changes only by the
    recency update of the cache lookup. *)
Theorem getParseTree_cache_hit_frame s doc i :
  entry_of s (uri doc) = Some i →
  entry_version i = version doc →
  (getParseTree ts_parse ts_edit doc s).2 =
    with_cache (LRUMap.get (uri doc) (_cache s)).2 s ∧
  filter (λ ev, is_parse_done ev = true)
         (trace (getParseTree ts_parse ts_edit doc s).2) =
    filter (λ ev, is_parse_done ev = true) (trace s) ∧
  entry_of (getParseTree ts_parse ts_edit doc s).2 (uri doc) = Some i ∧
  ∀ u, entry_of (getParseTree ts_parse ts_edit doc s).2 u = entry_of s u.
Proof.
  intros Hentry Hv. pose proof Hentry as (r & Hpeek & Hi)%entry_of_Some.
  unfold getParseTree. rewrite (_parse_hit s doc r i Hpeek Hi Hv). simpl.
  rewrite (get_present _ _ _ Hpeek). simpl. split; [done|]. split; [done|].
  assert (∀ u, entry_of (with_cache (LRUMap.remove (uri doc) (_cache s) ++
                                       [(uri doc, r)]) s) u = entry_of s u) as Hsame.
  { intros u. rewrite <- (entry_of_get s (uri doc) u).
    by rewrite (get_present _ _ _ Hpeek). }
  split; [by rewrite Hsame | done].
Qed.

(** C1: when the cache entry of the document's URI has another version, and
    the engine accepts the calls, [getParseTree] folds every pending edit into
    the old tree in recorded order, clears the pending edits, parses the full
    text with the folded old tree, releases the old tree, stores the new tree
    and the new version in the same entry, fires parse-completed and returns
    the new tree. *)
Theorem getParseTree_incremental s doc r i d d' dn :
  LRUMap.peek (uri doc) (_cache s) = Some r →
  entries s !! r = Some i →
  entry_version i ≠ version doc →
  trees s !! entry_tree i = Some d →
  fold_edits ts_edit d (concat (entry_edits i)) = Some d' →
  ts_parse (getText doc) (Some d') = Some dn →
  ∃ t,
    (getParseTree ts_parse ts_edit doc s).1 = Some (Some t) ∧
    (t ∉ dom (trees s)) ∧
    trace (getParseTree ts_parse ts_edit doc s).2 =
      trace s ++ map (EvEdit (entry_tree i)) (concat (entry_edits i)) ++
        [EvParse (getText doc) (Some (entry_tree i)) (Some t);
         EvDelete (entry_tree i);
         EvParseDone doc t (Some (mkEntry (version doc) t []))] ∧
    trees (getParseTree ts_parse ts_edit doc s).2 !! entry_tree i = Some d' ∧
    trees (getParseTree ts_parse ts_edit doc s).2 !! t = Some dn ∧
    LRUMap.peek (uri doc) (_cache (getParseTree ts_parse ts_edit doc s).2) = Some r ∧
    entries (getParseTree ts_parse ts_edit doc s).2 !! r =
      Some (mkEntry (version doc) t []).
Proof.
  intros Hpeek Hi Hv Hd Hfold Hparse. unfold getParseTree.
  rewrite (_parse_incremental_ok s doc r i d d' dn Hpeek Hi Hv Hd Hfold Hparse).
  exists (fresh (dom (trees s))). simpl.
  assert (entry_tree i ≠ fresh (dom (trees s))) as Hne.
  { intros Heq. apply elem_of_dom_2 in Hd. rewrite Heq in Hd.
    by apply is_fresh in Hd. }
  split; [done|]. split; [apply is_fresh|]. split; [done|].
  split; [by rewrite lookup_insert_ne, lookup_insert_eq|].
  split; [apply lookup_insert_eq|].
  split; [|apply lookup_insert_eq].
  rewrite peek_app, peek_remove_eq. simpl. by rewrite decide_True.
Qed.

(** C5: when the document's URI has no cache entry, and the engine parses
    the text, [getParseTree] parses the full text afresh, creates a new entry
    with the document's version, the fresh tree and no pending edits, inserts
    it into the cache, fires parse-completed and returns that tree.  The
    only other calls are the releases of the trees of evicted entries. *)
Theorem getParseTree_fresh ops doc d :
  let s := steps ts_parse ts_edit positionAt ops init in
  LRUMap.peek (uri doc) (_cache s) = None →
  ts_parse (getText doc) None = Some d →
  ∃ t r evicted,
    (getParseTree ts_parse ts_edit doc s).1 = Some (Some t) ∧
    (t ∉ dom (trees s)) ∧
    trees (getParseTree ts_parse ts_edit doc s).2 !! t = Some d ∧
    (r ∉ dom (entries s)) ∧
    LRUMap.peek (uri doc) (_cache (getParseTree ts_parse ts_edit doc s).2) = Some r ∧
    entries (getParseTree ts_parse ts_edit doc s).2 !! r =
      Some (mkEntry (version doc) t []) ∧
    trace (getParseTree ts_parse ts_edit doc s).2 =
      trace s ++ [EvParse (getText doc) None (Some t)] ++
        map EvDelete evicted ++
        [EvParseDone doc t (Some (mkEntry (version doc) t []))].
Proof.
  intros s Hpeek Hparse. unfold getParseTree.
  pose proof (Inv_reachable ops) as HI. fold s in HI.
  rewrite (_parse_fresh_ok s doc d Hpeek Hparse (inv_refs s HI)).
  eexists _, _, _. simpl.
  split; [done|]. split; [apply is_fresh|]. split; [apply lookup_insert_eq|].
  split; [apply is_fresh|].
  split; [apply peek_set_eq; unfold size; lia|].
  split; [apply lookup_insert_eq | done].
Qed.

(** C2: when the engine throws during [getParseTree], on the fresh or on the
    incremental path, the call returns absent and the cache entry of the
    document's URI is removed; the cache keeps every other entry in place,
    with its version, its tree and its pending edits unchanged. *)
Theorem getParseTree_engine_failure ops doc :
  let s := steps ts_parse ts_edit positionAt ops init in
  (∀ i, entry_of s (uri doc) = Some i → entry_version i ≠ version doc) →
  engine_outcome ts_parse ts_edit s doc = None →
  (getParseTree ts_parse ts_edit doc s).1 = Some None ∧
  _cache (getParseTree ts_parse ts_edit doc s).2 =
    LRUMap.remove (uri doc) (_cache s) ∧
  entry_of (getParseTree ts_parse ts_edit doc s).2 (uri doc) = None ∧
  (∀ u, u ≠ uri doc →
     entry_of (getParseTree ts_parse ts_edit doc s).2 u = entry_of s u) ∧
  (∀ u i, u ≠ uri doc → entry_of s u = Some i →
     trees (getParseTree ts_parse ts_edit doc s).2 !! entry_tree i =
     trees s !! entry_tree i).
Proof.
  intros s Hstale Hout. unfold getParseTree.
  pose proof (Inv_reachable ops) as HI. fold s in HI.
  unfold engine_outcome, entry_of in Hout.
  destruct (LRUMap.peek (uri doc) (_cache s)) as [r|] eqn:Hpeek; simpl in Hout.
  - pose proof (peek_Some_elem _ _ _ Hpeek) as Hin.
    destruct (inv_refs s HI _ _ Hin) as [i Hi]. rewrite Hi in Hout.
    assert (entry_version i ≠ version doc) as Hv.
    { apply Hstale. apply entry_of_Some. by exists r. }
    assert (holds s (entry_tree i)) as Hold by (by exists (uri doc), r, i).
    destruct (inv_held s HI _ Hold) as [[d Hd]%elem_of_dom _].
    rewrite Hd in Hout. simpl in Hout.
    destruct (_parse_incremental_fail s doc r i d Hpeek Hi Hv Hd Hout)
      as (evs & h & tm & -> & Hh & Hdom & Htm & _).
    simpl. split; [done|]. split; [done|].
    assert (∀ u r', u ≠ uri doc → LRUMap.peek u (_cache s) = Some r' → r' ≠ r)
      as Hother.
    { intros u r' Hu Hp%peek_Some_elem ->. apply Hu. by eapply Inv_ref_inj. }
    split; [|split].
    + unfold entry_of. simpl. by rewrite peek_remove_eq.
    + intros u Hu. unfold entry_of. simpl. rewrite peek_remove_ne by done.
      destruct (LRUMap.peek u (_cache s)) as [r'|] eqn:Hp; [|done]. simpl.
      apply Hh. by eapply Hother.
    + intros u i' Hu (r' & Hp & Hi')%entry_of_Some. apply Htm.
      intros Heq. apply Hu. apply peek_Some_elem in Hp.
      by eapply (inv_inj s HI u r' i' (uri doc) r i).
  - rewrite (_parse_fresh_fail s doc Hpeek Hout). simpl.
    split; [done|]. split; [by rewrite remove_absent|].
    split; [|done]. unfold entry_of. simpl. by rewrite Hpeek.
Qed.

(** C6: a change notification for a URI that has a cache entry appends to
    the pending edits of that entry one batch with one edit per change, in
    the order of the changes; the start offset of an edit is the range offset
    of its change, the old end offset is the range offset plus the removed
    length, the new end offset is the range offset plus the length of the
    replacement text; the start and old end positions have the line of the
    range's start and end as row and their character as column, and the new
    end position has as row and column the line and character that
    [positionAt] gives for the new end offset in the new text.  A
    notification for a URI without an entry changes nothing. *)
Theorem onDidChangeContent2_appends s e :
  _listener s = true →
  (∀ r i,
     LRUMap.peek (uri (document e)) (_cache s) = Some r →
     entries s !! r = Some i →
     LRUMap.peek (uri (document e))
       (_cache (onDidChangeContent2 positionAt e s).2) = Some r ∧
     entries (onDidChangeContent2 positionAt e s).2 !! r =
       Some (mkEntry (entry_version i) (entry_tree i)
               (entry_edits i ++ [_asEdits positionAt e])) ∧
     trees (onDidChangeContent2 positionAt e s).2 = trees s ∧
     trace (onDidChangeContent2 positionAt e s).2 = trace s) ∧
  (LRUMap.peek (uri (document e)) (_cache s) = None →
     onDidChangeContent2 positionAt e s = (Some tt, s)) ∧
  length (_asEdits positionAt e) = length (changes e) ∧
  (∀ n change, changes e !! n = Some change →
     ∃ ed, _asEdits positionAt e !! n = Some ed ∧
       startIndex ed = rangeOffset change ∧
       oldEndIndex ed = rangeOffset change + rangeLength change ∧
       newEndIndex ed =
         rangeOffset change + Z.of_nat (String.length (text change)) ∧
       row (startPosition ed) = line (range_start (range change)) ∧
       column (startPosition ed) = character (range_start (range change)) ∧
       row (oldEndPosition ed) = line (range_end (range change)) ∧
       column (oldEndPosition ed) = character (range_end (range change)) ∧
       row (newEndPosition ed) =
         line (positionAt (document e) (newEndIndex ed)) ∧
       column (newEndPosition ed) =
         character (positionAt (document e) (newEndIndex ed))).
Proof.
  intros Hl. split; [|split; [|split]].
  - intros r i Hpeek Hi.
    rewrite (onDidChangeContent2_present s e r i Hl Hpeek Hi). simpl.
    split; [|by rewrite lookup_insert_eq].
    rewrite peek_app, peek_remove_eq. simpl. by rewrite decide_True.
  - apply onDidChangeContent2_absent.
  - unfold _asEdits. apply length_map.
  - intros n change Hn. unfold _asEdits. eexists. split.
    + rewrite list_lookup_fmap, Hn. reflexivity.
    + done.
Qed.

(** C7: in every history, each parse-completed event carries the tree and
    the version that the cache entry of its document already held when the
    event fired. *)
Theorem parse_done_after_cache_update ops :
  fired_after_update (trace (steps ts_parse ts_edit positionAt ops init)).
Proof.
  apply steps_sound; [apply Inv_init|]. by intros ??? ?%elem_of_nil.
Qed.

(** C3: over every sequence of requests for trees and change notifications
    followed by [dispose], every tree that the engine has created is released
    exactly once, no tree is read by the engine or handed to a subscriber
    after its release, and a tree returned to a caller has not been
    released. *)
Theorem trees_released_exactly_once ops :
  let s := steps ts_parse ts_edit positionAt ops init in
  (∀ t, t ∈ dom (trees (dispose s).2) →
        releases t (trace (dispose s).2) = 1%nat) ∧
  (∀ ev t, ev ∈ trace (dispose s).2 → mentions t ev = true →
           releases t (trace (dispose s).2) = 1%nat) ∧
  no_read_after_release (trace (dispose s).2) ∧
  (∀ doc t, (getParseTree ts_parse ts_edit doc s).1 = Some (Some t) →
            releases t (trace (getParseTree ts_parse ts_edit doc s).2) = 0%nat).
Proof.
  intros s. pose proof (Inv_reachable ops) as HI. fold s in HI.
  rewrite (dispose_eq s (inv_refs s HI)). simpl.
  assert (∀ t, t ∈ dom (trees s) →
            releases t (trace s ++
              map EvDelete (entry_trees (entries s) (_cache s).*2)) = 1%nat)
    as Honce.
  { intros t Hin. rewrite releases_app.
    destruct (holds_dec s t) as [Ht|Ht].
    - destruct (inv_held s HI t Ht) as [_ ->].
      apply releases_deletes_once; [by apply Inv_NoDup_trees|].
      by apply holds_elem.
    - rewrite (inv_gone s HI t Hin Ht), releases_deletes_fresh; [done|].
      by rewrite <- holds_elem. }
  split; [done|]. split; [|split].
  - intros ev t [Hin|Hin]%elem_of_app Hm; apply Honce.
    + by eapply inv_alloc.
    + apply list_elem_of_fmap in Hin as (t' & -> & Hin). simpl in Hm.
      apply bool_decide_eq_true in Hm as ->.
      by apply (inv_held s HI), holds_elem.
  - apply no_read_after_release_live, reads_live_app. split.
    + by apply no_read_after_release_live, inv_reads.
    + apply reads_live_quiet. by intros ev t (t' & -> & _)%list_elem_of_fmap.
  - intros doc t Hres. unfold getParseTree in *.
    destruct (_parse_result s doc HI) as (o & Ho & Hheld).
    rewrite Ho in Hres. injection Hres as ->.
    destruct (_parse_step s doc HI) as [HI' _].
    by apply (inv_held _ HI'), Hheld.
Qed.

(** *** Further properties of [Trees] *)

(** The three ways in which a request ends, with what decides between them. *)
Lemma _parse_outcome s doc :
  Inv s →
  (∃ r i, LRUMap.peek (uri doc) (_cache s) = Some r ∧ entries s !! r = Some i ∧
          entry_version i = version doc ∧
          _parse ts_parse ts_edit doc s =
            (Some (Some (entry_tree i)),
             with_cache (LRUMap.remove (uri doc) (_cache s) ++ [(uri doc, r)]) s)) ∨
  ((∀ i, entry_of s (uri doc) = Some i → entry_version i ≠ version doc) ∧
   ∃ dn t r,
     engine_outcome ts_parse ts_edit s doc = Some dn ∧
     (_parse ts_parse ts_edit doc s).1 = Some (Some t) ∧
     LRUMap.peek (uri doc) (_cache (_parse ts_parse ts_edit doc s).2) = Some r ∧
     entries (_parse ts_parse ts_edit doc s).2 !! r =
       Some (mkEntry (version doc) t []) ∧
     trees (_parse ts_parse ts_edit doc s).2 !! t = Some dn) ∨
  ((∀ i, entry_of s (uri doc) = Some i → entry_version i ≠ version doc) ∧
   engine_outcome ts_parse ts_edit s doc = None ∧
   (_parse ts_parse ts_edit doc s).1 = Some None ∧
   LRUMap.peek (uri doc) (_cache (_parse ts_parse ts_edit doc s).2) = None).
Proof.
  intros HI. unfold engine_outcome, entry_of.
  destruct (LRUMap.peek (uri doc) (_cache s)) as [r|] eqn:Hpeek; simpl.
  - pose proof (peek_Some_elem _ _ _ Hpeek) as Hin.
    destruct (inv_refs s HI _ _ Hin) as [i Hi]. rewrite Hi.
    destruct (decide (entry_version i = version doc)) as [Hv|Hv].
    { left. exists r, i. by rewrite (_parse_hit s doc r i Hpeek Hi Hv). }
    right.
    assert (∀ i', Some i = Some i' → entry_version i' ≠ version doc) as Hstale
      by (by intros i' [= <-]).
    assert (holds s (entry_tree i)) as Hold by (by exists (uri doc), r, i).
    destruct (inv_held s HI _ Hold) as [[d Hd]%elem_of_dom _].
    rewrite Hd. simpl.
    destruct (fold_edits ts_edit d (concat (entry_edits i)) ≫=
                λ d', ts_parse (getText doc) (Some d')) as [dn|] eqn:Hout.
    + left. split; [done|]. apply bind_Some in Hout as (d' & Hfold & Hparse).
      rewrite (_parse_incremental_ok s doc r i d d' dn Hpeek Hi Hv Hd Hfold Hparse).
      simpl. exists dn, (fresh (dom (trees s))), r.
      split; [done|]. split; [done|].
      split; [rewrite peek_app, peek_remove_eq; simpl; by rewrite decide_True|].
      split; apply lookup_insert_eq.
    + right. split; [done|]. split; [done|].
      destruct (_parse_incremental_fail s doc r i d Hpeek Hi Hv Hd Hout)
        as (evs & h & tm & -> & _).
      simpl. split; [done | apply peek_remove_eq].
  - right. destruct (ts_parse (getText doc) None) as [d|] eqn:Hparse.
    + left. split; [done|].
      rewrite (_parse_fresh_ok s doc d Hpeek Hparse (inv_refs s HI)). simpl.
      exists d, (fresh (dom (trees s))), (fresh (dom (entries s))).
      split; [done|]. split; [done|].
      split; [apply peek_set_eq; unfold size; lia|].
      split; apply lookup_insert_eq.
    + right. split; [done|]. split; [done|].
      by rewrite (_parse_fresh_fail s doc Hpeek Hparse).
Qed.

(** X1: in every reachable state, [getParseTree] for a document returns to
    its caller and does not throw, and returns absent exactly when the request
    is not served from the cache and the engine throws.  [getParseTree] for a
    URI rejects exactly when the retrieval of the document rejects; it yields
    absent exactly when the document does not exist, or exists and the
    request for it is not served from the cache and the engine throws; when
    there is no document it leaves the state as it is. *)
Theorem getParseTree_absent_iff ops doc :
  let s := steps ts_parse ts_edit positionAt ops init in
  (getParseTree ts_parse ts_edit doc s).1 ≠ None ∧
  ((getParseTree ts_parse ts_edit doc s).1 = Some None ↔
   (∀ i, entry_of s (uri doc) = Some i → entry_version i ≠ version doc) ∧
   engine_outcome ts_parse ts_edit s doc = None) ∧
  ∀ retrieved,
    ((getParseTree_uri ts_parse ts_edit retrieved s).1 = None ↔ retrieved = None) ∧
    ((getParseTree_uri ts_parse ts_edit retrieved s).1 = Some None ↔
     retrieved = Some None ∨
     ∃ doc', retrieved = Some (Some doc') ∧
       (∀ i, entry_of s (uri doc') = Some i → entry_version i ≠ version doc') ∧
       engine_outcome ts_parse ts_edit s doc' = None) ∧
    ((∀ doc', retrieved ≠ Some (Some doc')) →
     (getParseTree_uri ts_parse ts_edit retrieved s).2 = s).
Proof.
  intros s. pose proof (Inv_reachable ops) as HI. fold s in HI.
  assert (∀ doc0,
            (_parse ts_parse ts_edit doc0 s).1 ≠ None ∧
            ((_parse ts_parse ts_edit doc0 s).1 = Some None ↔
             (∀ i, entry_of s (uri doc0) = Some i → entry_version i ≠ version doc0) ∧
             engine_outcome ts_parse ts_edit s doc0 = None)) as Hsync.
  { intros doc0.
    destruct (_parse_outcome s doc0 HI)
      as [(r & i & Hpeek & Hi & Hv & Heq)|
          [(Hstale & dn & t & r & Hout & Hres & _)|(Hstale & Hout & Hres & _)]].
    - rewrite Heq. simpl. split; [done|]. split; [done|].
      intros [Hstale _]. exfalso. apply (Hstale i); [|done].
      apply entry_of_Some. by exists r.
    - rewrite Hres. split; [done|]. split; [done|]. intros [_ Hnone]. congruence.
    - rewrite Hres. split; [done|]. split; [done|]. done. }
  unfold getParseTree. split; [apply Hsync|]. split; [apply Hsync|].
  intros [[doc'|]|]; unfold getParseTree_uri.
  - destruct (Hsync doc') as [Hnot Hiff]. split; [done|]. split.
    + rewrite Hiff. split.
      * intros [? ?]. right. by exists doc'.
      * intros [?|(doc'' & [= <-] & ? & ?)]; done.
    + intros Hno. by destruct (Hno doc').
  - split; [done|]. split; [|done].
    split; [by left | done].
  - split; [done|]. split; [|done].
    split; [done | intros [?|(? & ? & _)]; done].
Qed.

(** X2: when [getParseTree] returns a tree, the cache entry of the
    document's URI holds that tree and the document's version. *)
Theorem getParseTree_returns_current ops doc t :
  let s := steps ts_parse ts_edit positionAt ops init in
  (getParseTree ts_parse ts_edit doc s).1 = Some (Some t) →
  ∃ e, entry_of (getParseTree ts_parse ts_edit doc s).2 (uri doc) = Some e ∧
       entry_tree e = t ∧ entry_version e = version doc.
Proof.
  intros s Hret. pose proof (Inv_reachable ops) as HI. fold s in HI.
  unfold getParseTree in *.
  destruct (_parse_outcome s doc HI)
    as [(r & i & Hpeek & Hi & Hv & Heq)|
        [(Hstale & dn & t' & r & Hout & Hres & Hpeek & Hentry & _)|
         (Hstale & Hout & Hres & _)]].
  - rewrite Heq in Hret |- *. simpl in *. injection Hret as <-. exists i.
    split; [|done]. apply entry_of_Some. exists r. simpl.
    split; [|done]. rewrite peek_app, peek_remove_eq. simpl. by rewrite decide_True.
  - rewrite Hres in Hret. injection Hret as Heq. subst t'.
    exists (mkEntry (version doc) t []). split; [|done].
    apply entry_of_Some. by exists r.
  - rewrite Hres in Hret. done.
Qed.

(** X3: asking again for the tree of the same document is served from the
    cache: the second call returns the same tree, calls neither the engine nor
    the emitter and changes no tree. *)
Theorem getParseTree_twice ops doc t :
  let s := steps ts_parse ts_edit positionAt ops init in
  (getParseTree ts_parse ts_edit doc s).1 = Some (Some t) →
  let s' := (getParseTree ts_parse ts_edit doc s).2 in
  (getParseTree ts_parse ts_edit doc s').1 = Some (Some t) ∧
  trace (getParseTree ts_parse ts_edit doc s').2 = trace s' ∧
  trees (getParseTree ts_parse ts_edit doc s').2 = trees s'.
Proof.
  intros s Hret s'. pose proof (Inv_reachable ops) as HI. fold s in HI.
  unfold getParseTree in *.
  assert (∃ r e, LRUMap.peek (uri doc) (_cache s') = Some r ∧
                 entries s' !! r = Some e ∧ entry_tree e = t ∧
                 entry_version e = version doc) as (r & e & Hpeek & He & <- & Hv).
  { unfold s'.
    destruct (_parse_outcome s doc HI)
      as [(r & i & Hpeek & Hi & Hv & Heq)|
          [(Hstale & dn & t' & r & Hout & Hres & Hpeek & Hentry & _)|
           (Hstale & Hout & Hres & _)]].
    - rewrite Heq in Hret |- *. simpl in *. injection Hret as <-. exists r, i.
      split; [|done]. rewrite peek_app, peek_remove_eq. simpl. by rewrite decide_True.
    - rewrite Hres in Hret. injection Hret as Heq. subst t'.
      by exists r, (mkEntry (version doc) t []).
    - rewrite Hres in Hret. done. }
  by rewrite (_parse_hit s' doc r e Hpeek He Hv).
Qed.


(** X5: change notifications for a URI that has a cache entry pile up in
    arrival order as the last batches of its pending edits; they call neither
    the engine nor the emitter and change no tree and no version. *)
Theorem notifications_accumulate (es : list TextDocumentChange2) : ∀ s u r i,
  _listener s = true →
  LRUMap.peek u (_cache s) = Some r →
  entries s !! r = Some i →
  Forall (λ e, uri (document e) = u) es →
  let s' := steps ts_parse ts_edit positionAt (DidChangeContent <$> es) s in
  LRUMap.peek u (_cache s') = Some r ∧
  entries s' !! r =
    Some (mkEntry (entry_version i) (entry_tree i)
            (entry_edits i ++ map (_asEdits positionAt) es)) ∧
  trace s' = trace s ∧ trees s' = trees s ∧ _listener s' = true.
Proof.
  induction es as [|e es IH]; intros s u r i Hl Hpeek Hi Hes; simpl.
  - rewrite app_nil_r. by destruct i.
  - apply Forall_cons in Hes as [Hu Hes].
    rewrite <- Hu in Hpeek.
    rewrite (onDidChangeContent2_present s e r i Hl Hpeek Hi). simpl.
    edestruct (IH (mkState (LRUMap.remove (uri (document e)) (_cache s) ++
                              [(uri (document e), r)])
                     (<[r := mkEntry (entry_version i) (entry_tree i)
                               (entry_edits i ++ [_asEdits positionAt e])]> (entries s))
                     (trees s) (trace s) (_listener s)) u r)
      as (Hpeek' & Hi' & Htr & Htrees & Hl'); simpl; [done| | |done|].
    + rewrite <- Hu, peek_app, peek_remove_eq. simpl. by rewrite decide_True.
    + apply lookup_insert_eq.
    + simpl in Hi'. rewrite <- app_assoc in Hi'. done.
Qed.

(** X6: an incremental reparse reads the pending edits only through their
    flattened sequence: with the same edits grouped into other batches, a
    reparse that the engine accepts makes the same engine calls, returns the
    same tree and ends in the same state. *)
Theorem batching_irrelevant s doc r i (batches : list (list Edit)) dt d' dn :
  LRUMap.peek (uri doc) (_cache s) = Some r →
  entries s !! r = Some i →
  entry_version i ≠ version doc →
  trees s !! entry_tree i = Some dt →
  fold_edits ts_edit dt (concat (entry_edits i)) = Some d' →
  ts_parse (getText doc) (Some d') = Some dn →
  concat batches = concat (entry_edits i) →
  getParseTree ts_parse ts_edit doc
    (with_entries
       (<[r := mkEntry (entry_version i) (entry_tree i) batches]> (entries s)) s) =
  getParseTree ts_parse ts_edit doc s.
Proof.
  intros Hpeek Hi Hv Hd Hfold Hparse Hbatches. unfold getParseTree.
  rewrite (_parse_incremental_ok s doc r i dt d' dn Hpeek Hi Hv Hd Hfold Hparse).
  erewrite (_parse_incremental_ok _ doc r
              (mkEntry (entry_version i) (entry_tree i) batches) dt d' dn);
    [|exact Hpeek|apply lookup_insert_eq|exact Hv|exact Hd
     |cbn [entry_edits]; by rewrite Hbatches|exact Hparse].
  cbn [entry_edits entry_tree with_entries _cache entries trees trace _listener].
  by rewrite Hbatches, insert_insert_eq.
Qed.

Local Ltac wrap H :=
  match goal with |- (entry_of ?x _ = _ ∨ _) ∧ _ => apply (H x) end.

(** X7: a request for the tree of one document leaves the entry of every
    other URI as it was (version, tree, pending edits) and does not change the
    contents of its tree; the one exception is that a fresh parse, which
    inserts a new URI, may drop other entries from the cache. *)
Theorem getParseTree_frame ops doc u :
  let s := steps ts_parse ts_edit positionAt ops init in
  u ≠ uri doc →
  (entry_of (getParseTree ts_parse ts_edit doc s).2 u = entry_of s u ∨
   LRUMap.peek (uri doc) (_cache s) = None ∧
   entry_of (getParseTree ts_parse ts_edit doc s).2 u = None) ∧
  ∀ e, entry_of (getParseTree ts_parse ts_edit doc s).2 u = Some e →
       entry_of s u = Some e ∧
       trees (getParseTree ts_parse ts_edit doc s).2 !! entry_tree e =
       trees s !! entry_tree e.
Proof.
  intros s Hu. pose proof (Inv_reachable ops) as HI. fold s in HI.
  unfold getParseTree.
  assert (∀ s', (∀ e, entry_of s' u = Some e → entry_of s u = Some e ∧
                      trees s' !! entry_tree e = trees s !! entry_tree e) →
                (LRUMap.peek (uri doc) (_cache s) = None ∧ entry_of s' u = None) ∨
                entry_of s' u = entry_of s u →
                (entry_of s' u = entry_of s u ∨
                 LRUMap.peek (uri doc) (_cache s) = None ∧ entry_of s' u = None) ∧
                ∀ e, entry_of s' u = Some e → entry_of s u = Some e ∧
                     trees s' !! entry_tree e = trees s !! entry_tree e) as Hwrap.
  { intros s' H1 [H2|H2]; split; auto. }
  destruct (LRUMap.peek (uri doc) (_cache s)) as [r|] eqn:Hpeek.
  - pose proof (peek_Some_elem _ _ _ Hpeek) as Hin.
    destruct (inv_refs s HI _ _ Hin) as [i Hi].
    assert (∀ r', LRUMap.peek u (_cache s) = Some r' → r' ≠ r) as Hother.
    { intros r' Hp%peek_Some_elem ->. apply Hu. by eapply Inv_ref_inj. }
    assert (∀ e, entry_of s u = Some e → entry_tree e ≠ entry_tree i) as Htree.
    { intros e (r' & Hp%peek_Some_elem & He)%entry_of_Some Heq. apply Hu.
      by eapply (inv_inj s HI u r' e (uri doc) r i). }
    assert (∀ e, entry_of s u = Some e → entry_tree e ∈ dom (trees s)) as Hdom.
    { intros e (r' & Hp%peek_Some_elem & He)%entry_of_Some.
      apply (inv_held s HI). by exists u, r', e. }
    destruct (decide (entry_version i = version doc)) as [Hv|Hv].
    { rewrite (_parse_hit s doc r i Hpeek Hi Hv). cbn [snd].
      assert (entry_of (with_cache (LRUMap.remove (uri doc) (_cache s) ++
                                      [(uri doc, r)]) s) u = entry_of s u) as Hsame.
      { rewrite <- (entry_of_get s (uri doc) u).
        by rewrite (get_present _ _ _ Hpeek). }
      wrap Hwrap; [|by right]. intros e He. by rewrite Hsame in He. }
    assert (holds s (entry_tree i)) as Hold by (by exists (uri doc), r, i).
    destruct (inv_held s HI _ Hold) as [[d Hd]%elem_of_dom _].
    destruct (fold_edits ts_edit d (concat (entry_edits i)) ≫=
                λ d', ts_parse (getText doc) (Some d')) as [dn|] eqn:Hout.
    + apply bind_Some in Hout as (d' & Hfold & Hparse).
      rewrite (_parse_incremental_ok s doc r i d d' dn Hpeek Hi Hv Hd Hfold Hparse).
      cbn [snd].
      assert (entry_of (mkState (LRUMap.remove (uri doc) (_cache s) ++ [(uri doc, r)])
                 (<[r := mkEntry (version doc) (fresh (dom (trees s))) []]> (entries s))
                 (<[fresh (dom (trees s)) := dn]> (<[entry_tree i := d']> (trees s)))
                 (trace s ++ map (EvEdit (entry_tree i)) (concat (entry_edits i)) ++
                    [EvParse (getText doc) (Some (entry_tree i))
                       (Some (fresh (dom (trees s))));
                     EvDelete (entry_tree i);
                     EvParseDone doc (fresh (dom (trees s)))
                       (Some (mkEntry (version doc) (fresh (dom (trees s))) []))])
                 (_listener s)) u = entry_of s u) as Hsame.
      { unfold entry_of. simpl.
        rewrite peek_app, peek_remove_ne by done. simpl.
        rewrite decide_False by done.
        destruct (LRUMap.peek u (_cache s)) as [r'|] eqn:Hp; [|done]. simpl.
        rewrite lookup_insert_ne; [done|]. intros <-. by eapply Hother. }
      wrap Hwrap; [|by right]. intros e He. rewrite Hsame in He.
      split; [done|]. simpl.
      rewrite !lookup_insert_ne; [done| |].
      * intros Heq. by apply (Htree e).
      * intros Heq. apply (is_fresh (dom (trees s))). rewrite Heq. by apply Hdom.
    + destruct (_parse_incremental_fail s doc r i d Hpeek Hi Hv Hd Hout)
        as (evs & h & tm & -> & Hh & _ & Htm & _).
      cbn [snd].
      assert (entry_of (mkState (LRUMap.remove (uri doc) (_cache s)) h tm
                          (trace s ++ evs ++ [EvDelete (entry_tree i)])
                          (_listener s)) u = entry_of s u) as Hsame.
      { unfold entry_of. simpl. rewrite peek_remove_ne by done.
        destruct (LRUMap.peek u (_cache s)) as [r'|] eqn:Hp; [|done]. simpl.
        apply Hh. by eapply Hother. }
      wrap Hwrap; [|by right]. intros e He. rewrite Hsame in He.
      split; [done|]. simpl. apply Htm. by apply Htree.
  - destruct (ts_parse (getText doc) None) as [d|] eqn:Hparse.
    + rewrite (_parse_fresh_ok s doc d Hpeek Hparse (inv_refs s HI)). cbn [snd fst].
      destruct (set_absent size (uri doc) (fresh (dom (entries s))) _ Hpeek)
        as (evicted & rest & Hcache & _ & ->).
      cbn [snd fst]. set (s' := mkState _ _ _ _ _).
      assert (∀ r', LRUMap.peek u rest = Some r' →
                LRUMap.peek u (_cache s) = Some r' ∧
                <[fresh (dom (entries s)) :=
                    mkEntry (version doc) (fresh (dom (trees s))) []]> (entries s)
                  !! r' = entries s !! r') as Hrest.
      { intros r' Hp%peek_Some_elem.
        assert ((u, r') ∈ _cache s) as Hin
          by (rewrite Hcache; apply elem_of_app; by right).
        split; [by apply (Inv_peek s u r' HI)|].
        apply lookup_insert_ne. intros <-.
        destruct (inv_refs s HI _ _ Hin) as [e He%elem_of_dom_2].
        by apply is_fresh in He. }
      assert (entry_of s' u =
              LRUMap.peek u rest ≫= λ r', entries s !! r') as Hs'.
      { unfold entry_of, s'. simpl. rewrite peek_app.
        destruct (LRUMap.peek u rest) as [r'|] eqn:Hp; simpl.
        - by apply Hrest.
        - by rewrite decide_False. }
      wrap Hwrap.
      * intros e He. rewrite Hs' in He.
        apply bind_Some in He as (r' & Hp & He).
        destruct (Hrest r' Hp) as [Hp' _].
        assert (entry_of s u = Some e) as Hold.
        { apply entry_of_Some. by exists r'. }
        split; [done|]. unfold s'. simpl. apply lookup_insert_ne.
        intros Heq. apply (is_fresh (dom (trees s))). rewrite Heq.
        apply (inv_held s HI). exists u, r', e.
        by split; [apply peek_Some_elem|].
      * rewrite Hs'. destruct (LRUMap.peek u rest) as [r'|] eqn:Hp; simpl.
        -- right. destruct (Hrest r' eq_refl) as [Hp' _].
           unfold entry_of. by rewrite Hp'.
        -- by left.
    + rewrite (_parse_fresh_fail s doc Hpeek Hparse). cbn [snd].
      wrap Hwrap; [|by right]. intros e He. done.
Qed.

(** X8: [dispose] detaches the listener: in every reachable state, a change
    notification that arrives after [dispose] changes nothing. *)
Theorem dispose_detaches ops e :
  let s := steps ts_parse ts_edit positionAt ops init in
  onDidChangeContent2 positionAt e (dispose s).2 = (Some tt, (dispose s).2).
Proof.
  intros s. pose proof (Inv_reachable ops) as HI. fold s in HI.
  by rewrite (dispose_eq s (inv_refs s HI)).
Qed.

(** X9: [dispose] does not empty the cache: a second [dispose] releases
    every tree of the cache a second time. *)
Theorem dispose_twice_releases_twice ops t :
  let s := steps ts_parse ts_edit positionAt ops init in
  holds s t →
  releases t (trace (dispose s).2) = 1%nat ∧
  releases t (trace (dispose (dispose s).2).2) = 2%nat.
Proof.
  intros s Ht. pose proof (Inv_reachable ops) as HI. fold s in HI.
  rewrite (dispose_eq s (inv_refs s HI)). simpl.
  rewrite dispose_eq by apply (inv_refs s HI). simpl.
  destruct (inv_held s HI t Ht) as [_ Hrel].
  assert (releases t (map EvDelete (entry_trees (entries s) (_cache s).*2)) = 1%nat)
    as Hone.
  { apply releases_deletes_once; [by apply Inv_NoDup_trees | by apply holds_elem]. }
  rewrite !releases_app, Hrel, Hone. done.
Qed.

(** X10: [dispose] leaves the entries in the cache: a later request for a
    document whose entry is up to date is still served from the cache, and the
    tree it returns has been released. *)
Theorem getParseTree_after_dispose ops doc i :
  let s := steps ts_parse ts_edit positionAt ops init in
  entry_of s (uri doc) = Some i →
  entry_version i = version doc →
  (getParseTree ts_parse ts_edit doc (dispose s).2).1 = Some (Some (entry_tree i)) ∧
  releases (entry_tree i)
    (trace (getParseTree ts_parse ts_edit doc (dispose s).2).2) = 1%nat.
Proof.
  intros s (r & Hpeek & Hi)%entry_of_Some Hv.
  pose proof (Inv_reachable ops) as HI. fold s in HI.
  rewrite (dispose_eq s (inv_refs s HI)). unfold getParseTree.
  erewrite (_parse_hit _ doc r i); [|exact Hpeek|exact Hi|exact Hv]. simpl.
  split; [done|].
  assert (holds s (entry_tree i)) as Ht.
  { exists (uri doc), r, i. by split; [apply peek_Some_elem|]. }
  destruct (inv_held s HI _ Ht) as [_ Hrel].
  rewrite releases_app, Hrel. simpl.
  apply releases_deletes_once; [by apply Inv_NoDup_trees | by apply holds_elem].
Qed.

End TreesFacts.

(** *** The theorems on the sample engine *)

Lemma getParseTree_cache_hit_witness :
  entry_of Sample.state_ab "a" = Some (mkEntry 1 0 []) ∧
  (getParseTree Sample.ts_parse Sample.ts_edit Sample.doc_a1 Sample.state_ab).1 =
    Some (Some 0%nat) ∧
  trace (getParseTree Sample.ts_parse Sample.ts_edit Sample.doc_a1 Sample.state_ab).2 =
    trace Sample.state_ab ∧
  trees (getParseTree Sample.ts_parse Sample.ts_edit Sample.doc_a1 Sample.state_ab).2 =
    trees Sample.state_ab.
Proof.
  split; [vm_compute; reflexivity|].
  apply (getParseTree_cache_hit Sample.ts_parse Sample.ts_edit
           Sample.state_ab Sample.doc_a1 (mkEntry 1 0 []));
    vm_compute; reflexivity.
Defined.

Lemma getParseTree_cache_hit_frame_witness :
  entry_of Sample.state_ab "b" = Some (mkEntry 1 1 []) ∧
  ∀ u, entry_of
         (getParseTree Sample.ts_parse Sample.ts_edit Sample.doc_b1 Sample.state_ab).2 u =
       entry_of Sample.state_ab u.
Proof.
  split; [vm_compute; reflexivity|].
  apply (getParseTree_cache_hit_frame Sample.ts_parse Sample.ts_edit
           Sample.state_ab Sample.doc_b1 (mkEntry 1 1 []));
    vm_compute; reflexivity.
Defined.

Lemma getParseTree_incremental_witness :
  ∃ t,
    (getParseTree Sample.ts_parse Sample.ts_edit Sample.doc_a2
       Sample.state_ab_edited).1 = Some (Some t) ∧
    entry_of (getParseTree Sample.ts_parse Sample.ts_edit Sample.doc_a2
                Sample.state_ab_edited).2 (uri Sample.doc_a2) = Some (mkEntry 2 t []).
Proof.
  destruct (getParseTree_incremental Sample.ts_parse Sample.ts_edit
              Sample.state_ab_edited Sample.doc_a2 0
              (mkEntry 1 0 [_asEdits Sample.positionAt Sample.change_a2])
              ("fun", []) ("fun", _asEdits Sample.positionAt Sample.change_a2)
              ("fun x", []))
    as (t & Hres & _ & _ & _ & _ & Hpeek & Hentry);
    [vm_compute; reflexivity | vm_compute; reflexivity | vm_compute; discriminate
    | vm_compute; reflexivity | vm_compute; reflexivity | vm_compute; reflexivity |].
  exists t. split; [exact Hres|].
  unfold entry_of. rewrite Hpeek. exact Hentry.
Defined.

Lemma getParseTree_fresh_witness :
  ∃ t,
    (getParseTree Sample.ts_parse Sample.ts_edit Sample.doc_b1
       (Sample.steps [GetParseTree Sample.doc_a1] init)).1 = Some (Some t) ∧
    entry_of (getParseTree Sample.ts_parse Sample.ts_edit Sample.doc_b1
                (Sample.steps [GetParseTree Sample.doc_a1] init)).2
      (uri Sample.doc_b1) = Some (mkEntry 1 t []).
Proof.
  destruct (getParseTree_fresh Sample.ts_parse Sample.ts_edit Sample.positionAt
              [GetParseTree Sample.doc_a1] Sample.doc_b1 ("const", []))
    as (t & r & evicted & Hres & _ & _ & _ & Hpeek & Hentry & _);
    [vm_compute; reflexivity | vm_compute; reflexivity |].
  exists t. split; [exact Hres|].
  unfold entry_of. unfold Sample.steps. rewrite Hpeek. exact Hentry.
Defined.

Lemma getParseTree_engine_failure_witness :
  engine_outcome Sample.ts_parse Sample.ts_edit Sample.state_ab Sample.doc_a3_boom =
    None ∧
  (getParseTree Sample.ts_parse Sample.ts_edit Sample.doc_a3_boom Sample.state_ab).1 =
    Some None ∧
  entry_of (getParseTree Sample.ts_parse Sample.ts_edit Sample.doc_a3_boom
              Sample.state_ab).2 (uri Sample.doc_a3_boom) = None ∧
  entry_of (getParseTree Sample.ts_parse Sample.ts_edit Sample.doc_a3_boom
              Sample.state_ab).2 "b" = entry_of Sample.state_ab "b".
Proof.
  split; [vm_compute; reflexivity|].
  destruct (getParseTree_engine_failure Sample.ts_parse Sample.ts_edit
              Sample.positionAt
              [GetParseTree Sample.doc_a1; GetParseTree Sample.doc_b1]
              Sample.doc_a3_boom)
    as (Hres & _ & Hgone & Hother & _).
  - intros i. vm_compute. intros [= <-]. discriminate.
  - vm_compute. reflexivity.
  - split; [exact Hres|]. split; [exact Hgone|]. apply Hother. discriminate.
Defined.

Lemma onDidChangeContent2_appends_witness :
  _listener Sample.state_ab = true ∧
  entry_of (onDidChangeContent2 Sample.positionAt Sample.change_a2 Sample.state_ab).2
    (uri (document Sample.change_a2)) =
    Some (mkEntry 1 0
            [[mkEdit (mkPoint 0 3) (mkPoint 0 3) (mkPoint 0 5) 3 3 5]]) ∧
  ∃ ed, _asEdits Sample.positionAt Sample.change_a2 !! 0%nat = Some ed ∧
        newEndIndex ed = 5 ∧
        row (newEndPosition ed) = 0 ∧ column (newEndPosition ed) = 5.
Proof.
  split; [reflexivity|].
  destruct (onDidChangeContent2_appends (TreeData := Sample.TreeData)
              Sample.positionAt Sample.state_ab Sample.change_a2 eq_refl)
    as (Hpresent & _ & _ & Hedits).
  destruct (Hpresent 0%nat (mkEntry 1 0 [])) as (Hpeek & Hentry & _);
    [vm_compute; reflexivity | vm_compute; reflexivity |].
  split.
  - unfold entry_of. rewrite Hpeek. exact Hentry.
  - destruct (Hedits 0%nat
                (mkChange (mkRange (mkPosition 0 3) (mkPosition 0 3)) 3 0 " x")
                eq_refl)
      as (ed & Hed & _ & _ & Hnew & _ & _ & _ & _ & Hrow & Hcol).
    exists ed. split; [exact Hed|]. split; [exact Hnew|].
    rewrite Hrow, Hcol, Hnew. split; reflexivity.
Defined.

Lemma getParseTree_returns_current_witness :
  ∃ e, entry_of (getParseTree Sample.ts_parse Sample.ts_edit Sample.doc_b1
                   (Sample.steps [GetParseTree Sample.doc_a1] init)).2
         (uri Sample.doc_b1) = Some e ∧
       entry_tree e = 1%nat ∧ entry_version e = version Sample.doc_b1.
Proof.
  apply (getParseTree_returns_current Sample.ts_parse Sample.ts_edit
           Sample.positionAt [GetParseTree Sample.doc_a1] Sample.doc_b1 1%nat).
  vm_compute. reflexivity.
Defined.

Lemma getParseTree_twice_witness :
  (getParseTree Sample.ts_parse Sample.ts_edit Sample.doc_b1
     (getParseTree Sample.ts_parse Sample.ts_edit Sample.doc_b1
        (Sample.steps [GetParseTree Sample.doc_a1] init)).2).1 = Some (Some 1%nat).
Proof.
  apply (getParseTree_twice Sample.ts_parse Sample.ts_edit
           Sample.positionAt [GetParseTree Sample.doc_a1] Sample.doc_b1 1%nat).
  vm_compute. reflexivity.
Defined.


Lemma notifications_accumulate_witness :
  _listener Sample.state_ab = true ∧
  entries (Sample.steps [DidChangeContent Sample.change_a2] Sample.state_ab) !! 0%nat =
    Some (mkEntry 1 0 [_asEdits Sample.positionAt Sample.change_a2]).
Proof.
  split; [reflexivity|].
  destruct (notifications_accumulate Sample.ts_parse Sample.ts_edit
              Sample.positionAt [Sample.change_a2] Sample.state_ab "a" 0%nat
              (mkEntry 1 0 []))
    as (_ & Hentry & _);
    [reflexivity | vm_compute; reflexivity | vm_compute; reflexivity
    | repeat constructor |].
  exact Hentry.
Defined.

Lemma batching_irrelevant_witness :
  entry_edits <$> (entries Sample.state_ab_two !! 0%nat) =
    Some [[mkEdit (mkPoint 0 3) (mkPoint 0 3) (mkPoint 0 4) 3 3 4;
           mkEdit (mkPoint 0 4) (mkPoint 0 4) (mkPoint 0 5) 4 4 5]] ∧
  getParseTree Sample.ts_parse Sample.ts_edit Sample.doc_a2
    (with_entries
       (<[0%nat := mkEntry 1 0
            [[mkEdit (mkPoint 0 3) (mkPoint 0 3) (mkPoint 0 4) 3 3 4];
             [mkEdit (mkPoint 0 4) (mkPoint 0 4) (mkPoint 0 5) 4 4 5]]]>
          (entries Sample.state_ab_two)) Sample.state_ab_two) =
  getParseTree Sample.ts_parse Sample.ts_edit Sample.doc_a2 Sample.state_ab_two.
Proof.
  split; [vm_compute; reflexivity|].
  apply (batching_irrelevant Sample.ts_parse Sample.ts_edit
           Sample.state_ab_two Sample.doc_a2 0%nat
           (mkEntry 1 0
              [[mkEdit (mkPoint 0 3) (mkPoint 0 3) (mkPoint 0 4) 3 3 4;
                mkEdit (mkPoint 0 4) (mkPoint 0 4) (mkPoint 0 5) 4 4 5]])
           [[mkEdit (mkPoint 0 3) (mkPoint 0 3) (mkPoint 0 4) 3 3 4];
            [mkEdit (mkPoint 0 4) (mkPoint 0 4) (mkPoint 0 5) 4 4 5]]
           ("fun", [])
           ("fun", [mkEdit (mkPoint 0 3) (mkPoint 0 3) (mkPoint 0 4) 3 3 4;
                    mkEdit (mkPoint 0 4) (mkPoint 0 4) (mkPoint 0 5) 4 4 5])
           ("fun x", []));
    [vm_compute; reflexivity | vm_compute; reflexivity | vm_compute; discriminate
    | vm_compute; reflexivity | vm_compute; reflexivity | vm_compute; reflexivity
    | reflexivity].
Defined.

Lemma getParseTree_frame_witness :
  "b" ≠ uri Sample.doc_a2 ∧
  ∀ e, entry_of (getParseTree Sample.ts_parse Sample.ts_edit Sample.doc_a2
                   Sample.state_ab).2 "b" = Some e →
       entry_of Sample.state_ab "b" = Some e ∧
       trees (getParseTree Sample.ts_parse Sample.ts_edit Sample.doc_a2
                Sample.state_ab).2 !! entry_tree e =
       trees Sample.state_ab !! entry_tree e.
Proof.
  split; [discriminate|].
  apply (getParseTree_frame Sample.ts_parse Sample.ts_edit Sample.positionAt
           [GetParseTree Sample.doc_a1; GetParseTree Sample.doc_b1]
           Sample.doc_a2 "b").
  discriminate.
Defined.

Lemma dispose_twice_releases_twice_witness :
  releases 0 (trace (dispose (dispose
    (Sample.steps [GetParseTree Sample.doc_a1] init)).2).2) = 2%nat.
Proof.
  apply (dispose_twice_releases_twice Sample.ts_parse Sample.ts_edit
           Sample.positionAt [GetParseTree Sample.doc_a1] 0%nat).
  exists "a", 0%nat, (mkEntry 1 0 []).
  split; [vm_compute; left | split; vm_compute; reflexivity].
Defined.

Lemma getParseTree_after_dispose_witness :
  (getParseTree Sample.ts_parse Sample.ts_edit Sample.doc_a1
     (dispose (Sample.steps [GetParseTree Sample.doc_a1] init)).2).1 =
    Some (Some 0%nat) ∧
  releases 0
    (trace (getParseTree Sample.ts_parse Sample.ts_edit Sample.doc_a1
              (dispose (Sample.steps [GetParseTree Sample.doc_a1] init)).2).2) = 1%nat.
Proof.
  apply (getParseTree_after_dispose Sample.ts_parse Sample.ts_edit
           Sample.positionAt [GetParseTree Sample.doc_a1] Sample.doc_a1
           (mkEntry 1 0 []));
    vm_compute; reflexivity.
Defined.

End TreesFacts.

(** ** Queries for global declarations *)

Module GlobalsFacts.
Import Globals.
Section GlobalsFacts.
Context {SyntaxNode : Type}.
Variable node_text : SyntaxNode → string.
Variable node_startPosition : SyntaxNode → Point.
Variable node_endPosition : SyntaxNode → Point.
Context {Query : Type}.
Variable ts_query : string → option Query.
Variable ts_captures : Query → SyntaxNode → list (string * SyntaxNode).

Abbreviation queryGlobals :=
  (queryGlobals node_text node_startPosition node_endPosition ts_query ts_captures).
Abbreviation asLspRange := (asLspRange node_startPosition node_endPosition).

(** The query source declares three capture names. *)
Lemma capture_names_query_source :
  capture_names query_source = ["function"; "globalVar"; "const"].
Proof. reflexivity. Qed.

(** A call that does not throw keeps the compiled query. *)
Lemma queryGlobals_keeps node kept ms :
  (queryGlobals node kept).1 = Some ms →
  ∃ q, (queryGlobals node kept).2 = Some q ∧
       (kept = Some q ∨ kept = None ∧ ts_query query_source = Some q) ∧
       ms = map (λ a, mkMatch (node_text (capture_node a)) (capture_name a)
                        (asLspRange (capture_node a)) (capture_node a))
                (ts_captures q node).
Proof.
  unfold Globals.queryGlobals, query, parserQuery.
  destruct kept as [q|]; simpl.
  - intros [= <-]. exists q. auto.
  - destruct (ts_query query_source) as [q|]; simpl; [|done].
    intros [= <-]. exists q. auto.
Qed.



(** C10: when the engine reports captures under the names that the query
    declares, every match returned by [queryGlobals] has one of the types
    function, globalVar and const, and its text, its range and its node are
    those of the captured node. *)
Theorem queryGlobals_matches node kept ms m :
  (∀ q, kept = Some q → ts_query query_source = Some q) →
  (∀ q n a, ts_query query_source = Some q → a ∈ ts_captures q n →
            capture_name a ∈ capture_names query_source) →
  (queryGlobals node kept).1 = Some ms →
  m ∈ ms →
  match_type m ∈ ["function"; "globalVar"; "const"] ∧
  match_text m = node_text (match_node m) ∧
  match_range m = asLspRange (match_node m) ∧
  ∃ q a, (queryGlobals node kept).2 = Some q ∧ a ∈ ts_captures q node ∧
         match_node m = capture_node a ∧ match_type m = capture_name a.
Proof.
  intros Hkept Hnames (q & Hq & Hsrc & ->)%queryGlobals_keeps Hm.
  apply list_elem_of_fmap in Hm as (a & -> & Ha). simpl.
  assert (ts_query query_source = Some q) as Hcompiled.
  { destruct Hsrc as [?|[_ ?]]; [by apply Hkept | done]. }
  split; [|split; [done|split; [done|]]].
  - rewrite <- capture_names_query_source. by eapply Hnames.
  - by exists q, a.
Qed.

End GlobalsFacts.

(** *** The theorem on the sample query engine *)

Lemma sample_capture_names q n a :
  SampleQuery.ts_query query_source = Some q →
  a ∈ SampleQuery.ts_captures q n →
  capture_name a ∈ capture_names query_source.
Proof.
  intros [= <-]. rewrite capture_names_query_source.
  unfold SampleQuery.ts_captures.
  repeat case_decide; intros Ha.
  - apply list_elem_of_singleton in Ha as ->. simpl. set_solver.
  - apply list_elem_of_singleton in Ha as ->. simpl. set_solver.
  - by apply elem_of_nil in Ha.
Qed.

Lemma queryGlobals_matches_witness :
  (SampleQuery.queryGlobals SampleQuery.main_name None).1 =
    Some [mkMatch "main" "function"
            (mkRange (mkPosition 0 4) (mkPosition 0 8)) SampleQuery.main_name] ∧
  match_type (mkMatch "main" "function"
                (mkRange (mkPosition 0 4) (mkPosition 0 8)) SampleQuery.main_name)
    ∈ ["function"; "globalVar"; "const"].
Proof.
  split; [vm_compute; reflexivity|].
  destruct (queryGlobals_matches SampleQuery.node_text
              SampleQuery.node_startPosition SampleQuery.node_endPosition
              SampleQuery.ts_query SampleQuery.ts_captures
              SampleQuery.main_name None
              [mkMatch "main" "function"
                 (mkRange (mkPosition 0 4) (mkPosition 0 8)) SampleQuery.main_name]
              (mkMatch "main" "function"
                 (mkRange (mkPosition 0 4) (mkPosition 0 8)) SampleQuery.main_name))
    as [Htype _].
  - intros q Hq. discriminate Hq.
  - exact sample_capture_names.
  - vm_compute. reflexivity.
  - left.
  - exact Htype.
Defined.


End GlobalsFacts.

(** ** The client *)

Module ExtensionFacts.
Import Extension.

Lemma append_cons a s1 s2 : String a s1 +:+ s2 = String a (s1 +:+ s2).
Proof. reflexivity. Qed.

Lemma append_nil_l s : "" +:+ s = s.
Proof. reflexivity. Qed.

Lemma append_nil_r s : s +:+ "" = s.
Proof. induction s as [|a s IH]; [done | by rewrite append_cons, IH]. Qed.

Lemma startsWith_spec s search :
  startsWith s search = true ↔ ∃ rest, s = search +:+ rest.
Proof.
  unfold startsWith. revert s.
  induction search as [|a search IH]; intros s.
  - split; [intros _; by exists s | intros _; by destruct s].
  - destruct s as [|b s]; simpl.
    + split; [done | by intros [rest ?]].
    + destruct (Ascii.ascii_dec a b) as [->|Hab].
      * rewrite IH. split; intros [rest Hrest]; exists rest;
          rewrite append_cons in *; congruence.
      * split; [done | intros [rest Hrest]; rewrite append_cons in Hrest; congruence].
Qed.

Lemma endsWith_spec s search :
  endsWith s search = true ↔ ∃ front, s = front +:+ search.
Proof.
  induction s as [|a s IH]; cbn [endsWith].
  - rewrite orb_false_r, String.eqb_eq. split.
    + intros <-. by exists "".
    + intros [[|??] Hfront]; [done | by rewrite append_cons in Hfront].
  - rewrite orb_true_iff, String.eqb_eq, IH. split.
    + intros [<-|[front ->]]; [by exists "" | by exists (String a front)].
    + intros [[|b front] Hfront]; [by left|].
      right. rewrite append_cons in Hfront. injection Hfront as -> ->.
      by exists front.
Qed.

Lemma split_nonempty sep s : split sep s ≠ [].
Proof.
  destruct s as [|c s]; simpl; [done|].
  destruct (Ascii.eqb c sep); [done|]. by destruct (split sep s).
Qed.

Lemma last_cons_nonempty {A} (x : A) l d :
  l ≠ [] → List.last (x :: l) d = List.last l d.
Proof. by destruct l. Qed.

Lemma endsWith_cons a s search :
  endsWith s search = true → endsWith (String a s) search = true.
Proof. intros Hs. simpl. rewrite Hs. apply orb_true_r. Qed.

Section Split.
Variable sep : Ascii.ascii.

(** The typed prefix is a directory part, empty or ending with the separator,
    followed by the search string, which has no separator. *)
Lemma split_last s :
  ∃ dir,
    s = dir +:+ List.last (split sep s) "" ∧
    occurs sep (List.last (split sep s) "") = false ∧
    match split sep s with
    | [_] => dir = ""
    | _ => endsWith dir (String sep "") = true
    end.
Proof.
  induction s as [|c s (dir & Hs & Hocc & Hdir)].
  - by exists "".
  - cbn [split]. destruct (Ascii.eqb c sep) eqn:Hc.
    + apply Ascii.eqb_eq in Hc as ->.
      rewrite last_cons_nonempty by apply split_nonempty.
      exists (String sep dir). rewrite append_cons.
      split; [by rewrite <- Hs|]. split; [done|].
      destruct (split sep s) as [|seg [|seg' segs]] eqn:Hsplit;
        [by apply split_nonempty in Hsplit| |].
      * subst dir. simpl. by rewrite Ascii.eqb_refl.
      * by apply endsWith_cons.
    + destruct (split sep s) as [|seg [|seg' segs]] eqn:Hsplit;
        [by apply split_nonempty in Hsplit| |].
      * subst dir. cbn [List.last] in *. rewrite append_nil_l in Hs.
        exists "". rewrite append_nil_l. split; [by rewrite <- Hs|].
        split; [|done]. simpl. by rewrite Hc, Hocc.
      * cbn [List.last] in Hs, Hocc |- *.
        exists (String c dir). rewrite append_cons.
        split; [by rewrite <- Hs|]. split; [done|]. by apply endsWith_cons.
Qed.

Lemma split_two front rest :
  ∃ seg seg' segs, split sep (front +:+ String sep rest) = seg :: seg' :: segs.
Proof.
  induction front as [|c front (seg & seg' & segs & IH)].
  - rewrite append_nil_l. cbn [split]. rewrite Ascii.eqb_refl.
    destruct (split sep rest) as [|seg' segs] eqn:Hsplit;
      [by apply split_nonempty in Hsplit|]. by exists "", seg', segs.
  - rewrite append_cons. cbn [split]. rewrite IH.
    destruct (Ascii.eqb c sep); eauto.
Qed.

Lemma toSearch_after_sep front rest :
  toSearch sep (front +:+ String sep rest) = toSearch sep rest.
Proof.
  unfold toSearch. induction front as [|c front IH].
  - rewrite append_nil_l. cbn [split]. rewrite Ascii.eqb_refl.
    apply last_cons_nonempty, split_nonempty.
  - rewrite append_cons. cbn [split].
    destruct (split_two front rest) as (seg & seg' & segs & Hsplit).
    rewrite Hsplit in IH |- *. by destruct (Ascii.eqb c sep).
Qed.

End Split.

Section MatchingFilesFacts.
Variable sep : Ascii.ascii.

(** X11: the search string of [completion/matching-files] is what follows
    the last separator of the typed prefix: the prefix is a directory part,
    empty or ending with the separator, followed by the search string, and the
    search string contains no separator. *)
Theorem toSearch_decompose pathPrefix :
  ∃ dir,
    pathPrefix = dir +:+ toSearch sep pathPrefix ∧
    (dir = "" ∨ endsWith dir (String sep "") = true) ∧
    occurs sep (toSearch sep pathPrefix) = false.
Proof.
  destruct (split_last sep pathPrefix) as (dir & Hs & Hocc & Hdir).
  exists dir. split; [done|]. split; [|done].
  destruct (split sep pathPrefix) as [|seg [|seg' segs]]; auto.
Qed.

(** X12: the search string is empty exactly when the typed prefix is empty
    or ends with the separator. *)
Theorem toSearch_empty_iff pathPrefix :
  toSearch sep pathPrefix = "" ↔
  pathPrefix = "" ∨ endsWith pathPrefix (String sep "") = true.
Proof.
  split.
  - intros Hempty.
    destruct (toSearch_decompose pathPrefix) as (dir & Hs & Hdir & _).
    rewrite Hempty, append_nil_r in Hs. by subst dir.
  - intros [->|[front ->]%endsWith_spec]; [done|].
    by rewrite toSearch_after_sep.
Qed.

Lemma keep_spec search name type :
  keep search (name, type) = true ↔
  name ≠ search ∧ (∃ rest, name = search +:+ rest) ∧
  (type = FileType_File → ∃ stem, name = stem +:+ ".fc").
Proof.
  unfold keep. destruct (String.eqb name search) eqn:Heq.
  - apply String.eqb_eq in Heq. split; [done | by intros [? _]].
  - apply String.eqb_neq in Heq.
    rewrite andb_true_iff, orb_true_iff, negb_true_iff, Z.eqb_neq.
    rewrite startsWith_spec, endsWith_spec.
    split.
    + intros [Hpre [Htype|Hext]]; (split; [done|]); (split; [done|]); [done|auto].
    + intros (_ & Hpre & Hext). split; [done|].
      destruct (decide (type = FileType_File)); auto.
Qed.

(** X13: the suggestions of [completion/matching-files] are exactly the
    entries of the directory whose name properly extends the search string and
    which are not plain files without the extension [.fc]; a directory is
    suggested with the separator appended; when the directory cannot be read
    there is no suggestion. *)
Theorem matching_files_spec readDirectory pathPrefix r :
  In r (matching_files sep readDirectory pathPrefix) ↔
  ∃ files name type,
    readDirectory = Some files ∧ In (name, type) files ∧
    name ≠ toSearch sep pathPrefix ∧
    (∃ rest, name = toSearch sep pathPrefix +:+ rest) ∧
    (type = FileType_File → ∃ stem, name = stem +:+ ".fc") ∧
    r = if decide (type = FileType_Directory) then name +:+ String sep ""
        else name.
Proof.
  unfold matching_files. destruct readDirectory as [files|].
  - rewrite in_map_iff. split.
    + intros ([name type] & <- & [Hin Hkeep]%filter_In).
      apply keep_spec in Hkeep as (Hne & Hpre & Hext).
      exists files, name, type. repeat (split; [done|]).
      unfold label. case_decide as Hd.
      * by rewrite Hd.
      * by apply Z.eqb_neq in Hd as ->.
    + intros (files' & name & type & [= <-] & Hin & Hne & Hpre & Hext & ->).
      exists (name, type). split.
      * unfold label. case_decide as Hd.
        -- by rewrite Hd.
        -- by apply Z.eqb_neq in Hd as ->.
      * apply filter_In. split; [done|]. by apply keep_spec.
  - split; [done | by intros (? & ? & ? & ? & _)].
Qed.

(** X14: every suggestion properly extends the search string: it is the
    search string followed by at least one more character. *)
Theorem matching_files_extend readDirectory pathPrefix r :
  In r (matching_files sep readDirectory pathPrefix) →
  ∃ rest, rest ≠ "" ∧ r = toSearch sep pathPrefix +:+ rest.
Proof.
  intros (files & name & type & _ & _ & Hne & [rest ->] & _ & ->)%matching_files_spec.
  assert (rest ≠ "") as Hrest.
  { intros ->. by rewrite append_nil_r in Hne. }
  case_decide.
  - exists (rest +:+ String sep ""). split.
    + destruct rest; [done|]. by rewrite append_cons.
    + clear. induction (toSearch sep pathPrefix) as [|a t IH]; [done|].
      by rewrite !append_cons, IH.
  - by exists rest.
Qed.

End MatchingFilesFacts.

(** X15: [queue/init] announces the first files found, as many as the
    setting [func.symbolIndexSize] says and 500 when it is not set; with a
    negative setting it announces none, the slice never counts from the end. *)
Theorem init_uris_take configured all :
  init_uris configured all = take (Z.to_nat (default 500 configured)) all ∧
  length (init_uris configured all) =
    Nat.min (Z.to_nat (default 500 configured)) (length all) ∧
  (default 500 configured < 0 → init_uris configured all = []).
Proof.
  assert (init_uris configured all = take (Z.to_nat (default 500 configured)) all)
    as Heq.
  { unfold init_uris, symbolIndexSize, slice0.
    set (n := default 500 configured).
    destruct (Z.max 0 n <? 0) eqn:Hneg; [apply Z.ltb_lt in Hneg; lia|].
    destruct (decide (Z.max 0 n ≤ Z.of_nat (length all))) as [Hle|Hgt].
    - rewrite Z.min_l by done. f_equal. lia.
    - rewrite Z.min_r by lia. rewrite Nat2Z.id.
      rewrite !take_ge; [done | lia | lia]. }
  rewrite Heq. split; [done|]. split; [apply length_take|].
  intros Hneg. by rewrite Z2Nat.nonpos by lia.
Qed.

(** X16: the database name survives activations: once [startServer] has
    run, a later run finds the same name whatever the random draw, and
    [startServer] leaves every other key of the workspace state alone. *)
Theorem databaseName_stable ws rnd rnd' :
  databaseName (startServer_workspaceState ws rnd) rnd' = databaseName ws rnd ∧
  startServer_workspaceState (startServer_workspaceState ws rnd) rnd' =
    startServer_workspaceState ws rnd ∧
  ∀ key, key ≠ "dbName" → startServer_workspaceState ws rnd !! key = ws !! key.
Proof.
  assert (databaseName (startServer_workspaceState ws rnd) rnd' = databaseName ws rnd)
    as Hname.
  { unfold startServer_workspaceState, Memento_update.
    unfold databaseName at 1. unfold Memento_get. by rewrite lookup_insert_eq. }
  split; [done|]. split.
  - unfold startServer_workspaceState at 1. rewrite Hname.
    unfold startServer_workspaceState, Memento_update. apply insert_insert_eq.
  - intros key Hkey. unfold startServer_workspaceState, Memento_update.
    by rewrite lookup_insert_ne.
Qed.

Lemma matching_files_extend_witness :
  In "main.fc"
    (matching_files "/" (Some [("main.fc", 1); ("notes.txt", 1); ("math", 2)])
       "lib/ma") ∧
  ∃ rest, rest ≠ "" ∧ "main.fc" = toSearch "/" "lib/ma" +:+ rest.
Proof.
  split; [vm_compute; by left|].
  apply (matching_files_extend "/"
           (Some [("main.fc", 1); ("notes.txt", 1); ("math", 2)]) "lib/ma").
  vm_compute. by left.
Defined.

End ExtensionFacts.
